(** * Ownership-ledger reconstruction: event cache, ingestion sweep,
      ledger replay, balance aggregation and the interval rate limiter.

    Shallow embedding of [db.js], [ratelimit.js] and [app.js].

    Conventions of the embedding:
    - JavaScript numbers that the program only uses as integers (block
      heights, log indices, chunk sizes, millisecond clocks) are [Z]; all
      of them stay far below 2^53, where double arithmetic on integers and
      the products by 0.75, 1.25 and 0.5 followed by [Math.floor] are exact.
    - BigInt values (token ids, balances in wei) are [N] and [Z].
    - Addresses, transaction hashes and SQL TEXT columns are [string].
    - A [Map] keyed by strings is a [gmap string _], a [Set] of strings a
      [gset string].
    - Console output is left out except where a statement is about it. *)

From Stdlib Require Import ZArith NArith String List Lia DecimalString DecimalN.
From stdpp Require Import gmap strings list sorting.

Local Open Scope Z_scope.

(** ** db.js : the SQLite event cache *)

Module EventCacheDB.

(** An event as [contract.queryFilter] delivers it: [event.blockNumber],
    [event.index], [event.transactionHash], [event.args[0..2]]. *)
Record EventLog := mkEventLog {
  ev_blockNumber : Z;
  ev_index : Z;
  ev_transactionHash : string;
  ev_args0 : string;
  ev_args1 : string;
  ev_args2 : N
}.

(** A row of table [transfers] (the autoincremented [id] is the position
    of the row in the table). *)
Record Row := mkRow {
  blockNumber : Z;
  logIndex : Z;
  transactionHash : string;
  fromAddress : string;
  toAddress : string;
  tokenId : string
}.

Definition Table := list Row.

(** The object [getEventsByBlockRange] rebuilds from a row:
    [{blockNumber, logIndex, transactionHash, args: {from, to, tokenId}}]. *)
Record Args := mkArgs {
  args_from : string;
  args_to : string;
  args_tokenId : N
}.

Record CachedEvent := mkCachedEvent {
  ce_blockNumber : Z;
  ce_logIndex : Z;
  ce_transactionHash : string;
  args : Args
}.

(** [bigint.toString()] : canonical decimal digits. *)
Definition toString (n : N) : string :=
  NilEmpty.string_of_uint (N.to_uint n).

(** [BigInt(text)] on a string of decimal digits; any other text makes
    the constructor throw (hexadecimal and blank-padded literals, which
    [toString] never produces, are not modelled). *)
Definition BigInt (s : string) : option N :=
  N.of_uint <$> NilEmpty.uint_of_string s.

(** UNIQUE(blockNumber, logIndex, transactionHash) *)
Definition same_key (r r' : Row) : bool :=
  (blockNumber r =? blockNumber r') && (logIndex r =? logIndex r')
  && String.eqb (transactionHash r) (transactionHash r').

(** INSERT OR IGNORE INTO transfers (...) VALUES (...) *)
Definition insert_or_ignore (t : Table) (r : Row) : Table :=
  if existsb (same_key r) t then t else t ++ [r].

Definition row_of_event (event : EventLog) : Row :=
  {| blockNumber := ev_blockNumber event;
     logIndex := ev_index event;
     transactionHash := ev_transactionHash event;
     fromAddress := ev_args0 event;
     toAddress := ev_args1 event;
     tokenId := toString (ev_args2 event) |}.

(** The row [insertEvent] writes; its argument has the shape
    [{blockNumber, logIndex, transactionHash, args: {from, to, tokenId}}],
    the one [getEventsByBlockRange] returns. *)
Definition row_of_cached (event : CachedEvent) : Row :=
  {| blockNumber := ce_blockNumber event;
     logIndex := ce_logIndex event;
     transactionHash := ce_transactionHash event;
     fromAddress := args_from (args event);
     toAddress := args_to (args event);
     tokenId := toString (args_tokenId (args event)) |}.

(** [insertEvent], as far as the table is concerned (the promise also
    carries [this.lastID]). *)
Definition insertEvent (event : CachedEvent) (t : Table) : Table :=
  insert_or_ignore t (row_of_cached event).

(** [bulkInsertEvents], on the path where the transaction commits. *)
Definition bulkInsertEvents (events : list EventLog) (t : Table) : Table :=
  fold_left (fun t event => insert_or_ignore t (row_of_event event)) events t.

(** WHERE blockNumber >= ? AND blockNumber <= ? *)
Definition in_range (fromBlock toBlock : Z) (r : Row) : Prop :=
  fromBlock <= blockNumber r /\ blockNumber r <= toBlock.

#[export] Instance in_range_dec fromBlock toBlock r :
  Decision (in_range fromBlock toBlock r).
Proof. unfold in_range. apply _. Defined.

(** ORDER BY blockNumber ASC, logIndex ASC *)
Definition order_by (r r' : Row) : Prop :=
  blockNumber r < blockNumber r'
  \/ (blockNumber r = blockNumber r' /\ logIndex r <= logIndex r').

#[export] Instance order_by_dec : RelDecision order_by.
Proof. intros r r'. unfold order_by. apply _. Defined.

Definition select_range (fromBlock toBlock : Z) (t : Table) : list Row :=
  merge_sort order_by (filter (in_range fromBlock toBlock) t).

Definition format_row (row : Row) : option CachedEvent :=
  n ← BigInt (tokenId row);
  Some {| ce_blockNumber := blockNumber row;
          ce_logIndex := logIndex row;
          ce_transactionHash := transactionHash row;
          args := {| args_from := fromAddress row;
                     args_to := toAddress row;
                     args_tokenId := n |} |}.

(** [getEventsByBlockRange]; [None] when [BigInt] throws on a stored
    token id, in which case no event list is produced. *)
Definition getEventsByBlockRange (fromBlock toBlock : Z) (t : Table)
  : option (list CachedEvent) :=
  mapM format_row (select_range fromBlock toBlock t).

(** SELECT MAX(blockNumber) as maxBlock FROM transfers; NULL on an empty
    table. *)
Definition max_blockNumber (t : Table) : option Z :=
  match t with
  | [] => None
  | r :: t' => Some (fold_left Z.max (map blockNumber t') (blockNumber r))
  end.

(** JavaScript [x || d] on a nullable number: null and 0 are falsy. *)
Definition js_or (x : option Z) (d : Z) : Z :=
  match x with
  | None => d
  | Some v => if v =? 0 then d else v
  end.

(** [GetHighestCachedBlock] : [resolve(row.maxBlock || -1)] *)
Definition GetHighestCachedBlock (t : Table) : Z :=
  js_or (max_blockNumber t) (-1).

End EventCacheDB.

(** ** app.js : checkpoint search, ingestion sweep, ledger replay,
       balance aggregation and [main] *)

Module App.
Import EventCacheDB.

(** *** Promises, observed once the run has settled or stalled *)

Inductive js_error :=
| TypeError (message : string)
| Error (message : string).

Inductive promise (A : Type) :=
| Fulfilled (value : A)
| Rejected (reason : js_error)
| Pending.
Arguments Fulfilled {A} value.
Arguments Rejected {A} reason.
Arguments Pending {A}.

(** [p.then(f)] *)
Definition promise_then {A B} (p : promise A) (f : A -> promise B) : promise B :=
  match p with
  | Fulfilled v => f v
  | Rejected e => Rejected e
  | Pending => Pending
  end.

(** [p.catch(h)] *)
Definition promise_catch {A} (p : promise A) (h : js_error -> promise A) : promise A :=
  match p with
  | Fulfilled v => Fulfilled v
  | Rejected e => h e
  | Pending => Pending
  end.

(** [Promise.all(ps)]: rejects as soon as one input rejects (the inputs
    are scanned in array order here), stays pending while an input is
    pending and none rejected, fulfils with all the values otherwise. *)
Fixpoint first_rejection {A} (ps : list (promise A)) : option js_error :=
  match ps with
  | [] => None
  | Rejected e :: _ => Some e
  | _ :: ps' => first_rejection ps'
  end.

Fixpoint all_values {A} (ps : list (promise A)) : option (list A) :=
  match ps with
  | [] => Some []
  | Fulfilled v :: ps' => cons v <$> all_values ps'
  | _ :: _ => None
  end.

Definition Promise_all {A} (ps : list (promise A)) : promise (list A) :=
  match first_rejection ps with
  | Some e => Rejected e
  | None =>
      match all_values ps with
      | Some vs => Fulfilled vs
      | None => Pending
      end
  end.

(** *** findBlockByTimestamp *)

Record Block := mkBlock { number : Z; timestamp : Z }.

Definition tolerance : Z := 300.

(** The [while (startBlock <= endBlock)] loop. The outer [None] means
    that [fuel] iterations did not suffice; the inner option is
    [foundBlock]. *)
Fixpoint search_loop (fuel : nat) (getBlock : Z -> option Block)
    (targetTimestamp startBlock endBlock : Z) : option (option Block) :=
  if startBlock <=? endBlock then
    match fuel with
    | O => None
    | S fuel' =>
        let midBlock := (startBlock + endBlock) / 2 in
        match getBlock midBlock with
        | None => Some None
        | Some block =>
            let blockTimestamp := timestamp block in
            if Z.abs (blockTimestamp - targetTimestamp) <=? tolerance then
              Some (Some block)
            else if blockTimestamp <? targetTimestamp then
              search_loop fuel' getBlock targetTimestamp (midBlock + 1) endBlock
            else
              search_loop fuel' getBlock targetTimestamp startBlock (midBlock - 1)
        end
    end
  else Some None.

(** [findBlockByTimestamp]; the interval [0 .. getBlockNumber()] holds
    [getBlockNumber() + 1] heights and every iteration removes at least
    one of them, so that many iterations always suffice
    ([search_loop_enough_fuel] below). The target, which JavaScript
    coerces from [process.argv[2]], is taken as a number. *)
Definition findBlockByTimestamp (getBlockNumber : Z)
    (getBlock : Z -> option Block) (targetTimestamp : Z) : option Block :=
  mjoin (search_loop (Z.to_nat (getBlockNumber + 1)) getBlock
           targetTimestamp 0 getBlockNumber).

(** *** getTransactionThroughBlock *)

Definition MIN_CHUNK_SIZE : Z := 100.
Definition MAX_CHUNK_SIZE : Z := 150000.
Definition MAX_LOGS_PER_QUERY : Z := 9500.
Definition MIN_LOGS_TO_INCREASE_CHUNK : Z := 1000.

(** Outcome of [await contract.queryFilter(holder, from, to)]. *)
Inductive query_result :=
| QueryOk (events : list EventLog)
| QueryError (message : string).

(** [s.includes(sub)] *)
Definition includes (s sub : string) : bool :=
  match String.index 0 sub s with
  | Some _ => true
  | None => false
  end.

(** Lines 107-119: the branch that the if / else-if chain takes after a
    window that returned [n = events.length] logs. *)
Inductive resize_rule :=
| Shrink        (* line 109 *)
| GrowQuarter   (* line 113 *)
| Double        (* line 117 *)
| Keep.

Definition resize_rule_for (n currentChunkSize : Z) : resize_rule :=
  if n >=? MAX_LOGS_PER_QUERY then Shrink
  else if (n <? MIN_LOGS_TO_INCREASE_CHUNK) && (currentChunkSize <? MAX_CHUNK_SIZE)
  then GrowQuarter
  else if (n =? 0) && (currentChunkSize <? MAX_CHUNK_SIZE) then Double
  else Keep.

(** The assignment of each branch; [Math.floor(c * 0.75)] is
    [c * 3 / 4] and [Math.floor(c * 1.25)] is [c * 5 / 4]. *)
Definition apply_rule (r : resize_rule) (currentChunkSize : Z) : Z :=
  match r with
  | Shrink => Z.max MIN_CHUNK_SIZE (currentChunkSize * 3 / 4)
  | GrowQuarter => Z.min MAX_CHUNK_SIZE (currentChunkSize * 5 / 4)
  | Double => Z.min MAX_CHUNK_SIZE (currentChunkSize * 2)
  | Keep => currentChunkSize
  end.

Definition resize_after_success (n currentChunkSize : Z) : Z :=
  apply_rule (resize_rule_for n currentChunkSize) currentChunkSize.

(** Lines 126-131: the chunk size after a failed window. *)
Definition resize_after_error (message : string) (currentChunkSize : Z) : Z :=
  if includes message "query returned more than" then
    Z.max MIN_CHUNK_SIZE (currentChunkSize / 2)
  else currentChunkSize.

(** The variables of the sweep, the cache, and the windows queried so
    far (oldest first). *)
Record Sweep := mkSweep {
  currentBlock : Z;
  currentChunkSize : Z;
  cache : Table;
  windows : list (Z * Z)
}.

(** A loop observed after a bounded number of iterations. *)
Inductive loop (A : Type) :=
| Finished (a : A)
| Running (a : A).
Arguments Finished {A} a.
Arguments Running {A} a.

Definition loop_state {A} (l : loop A) : A :=
  match l with Finished a | Running a => a end.

Section Sweep.
(** The remote source: the answer to the [k]-th call of [queryFilter]
    (counting from 0) for the window [[fromBlock, toBlock]]. *)
Variable queryFilter : nat -> Z -> Z -> query_result.
Variable highestCachedBlock : Z.
Variable maxBlock : Z.

(** One iteration of [while (currentBlock <= maxBlock)]. *)
Definition sweep_body (s : Sweep) : Sweep :=
  if highestCachedBlock >? currentBlock s then
    {| currentBlock := highestCachedBlock;
       currentChunkSize := currentChunkSize s;
       cache := cache s;
       windows := windows s |}
  else
    let toBlockChunk :=
      Z.min (currentBlock s + currentChunkSize s - 1) maxBlock in
    match queryFilter (length (windows s)) (currentBlock s) toBlockChunk with
    | QueryOk events =>
        {| currentBlock := toBlockChunk + 1;
           currentChunkSize :=
             resize_after_success (Z.of_nat (length events)) (currentChunkSize s);
           cache := bulkInsertEvents events (cache s);
           windows := windows s ++ [(currentBlock s, toBlockChunk)] |}
    | QueryError message =>
        {| currentBlock := currentBlock s;
           currentChunkSize := resize_after_error message (currentChunkSize s);
           cache := cache s;
           windows := windows s ++ [(currentBlock s, toBlockChunk)] |}
    end.

Fixpoint sweep_loop (fuel : nat) (s : Sweep) : loop Sweep :=
  if currentBlock s <=? maxBlock then
    match fuel with
    | O => Running s
    | S fuel' => sweep_loop fuel' (sweep_body s)
    end
  else Finished s.
End Sweep.

(** [getTransactionThroughBlock], with the module constant [startBlock]
    and the initial chunk size as parameters. *)
Definition sweep_from (startBlock initialChunkSize : Z)
    (queryFilter : nat -> Z -> Z -> query_result)
    (targetBlockNumber : Z) (db : Table) (fuel : nat) : loop Sweep :=
  let s0 := {| currentBlock := startBlock;
               currentChunkSize := initialChunkSize;
               cache := db;
               windows := [] |} in
  let highestCachedBlock := GetHighestCachedBlock db in
  if highestCachedBlock >=? targetBlockNumber then Finished s0
  else sweep_loop queryFilter highestCachedBlock targetBlockNumber fuel s0.

Definition startBlock : Z := 12286690.

Definition getTransactionThroughBlock := sweep_from startBlock 50000.

(** *** getHolderMapByBlock *)

Definition zeroAddress : string := "0x0000000000000000000000000000000000000000".

(** The body of the [for] loop over the cached events. *)
Definition holder_step (holderMap : gmap string string) (event : CachedEvent)
  : gmap string string :=
  let holder := args_to (args event) in
  let tokenId := toString (args_tokenId (args event)) in
  if String.eqb holder zeroAddress then delete tokenId holderMap
  else <[tokenId := holder]> holderMap.

Definition replay (transferEvent : list CachedEvent) : gmap string string :=
  fold_left holder_step transferEvent ∅.

Definition getHolderMapByBlock (startBlock targetBlockNumber : Z) (db : Table)
  : option (gmap string string) :=
  replay <$> getEventsByBlockRange startBlock targetBlockNumber db.

(** The ledger as the specification words it: for each asset, the
    recipient of the last transfer of that asset in the sequence, and no
    entry when there is no such transfer or when it goes to the zero
    address. *)
Fixpoint last_transfer (key : string) (events : list CachedEvent)
  : option CachedEvent :=
  match events with
  | [] => None
  | e :: rest =>
      match last_transfer key rest with
      | Some e' => Some e'
      | None =>
          if String.eqb (toString (args_tokenId (args e))) key
          then Some e else None
      end
  end.

Definition reference_ledger (events : list CachedEvent) (key : string)
  : option string :=
  match last_transfer key events with
  | Some e =>
      if String.eqb (args_to (args e)) zeroAddress then None
      else Some (args_to (args e))
  | None => None
  end.

(** *** getWalletBalance *)

(** The numbers the retry loop compares: a count or [Infinity]. *)
Inductive jsnum :=
| Finite (z : Z)
| Infinity.

Definition jsnum_ltb (a b : jsnum) : bool :=
  match a, b with
  | Finite x, Finite y => x <? y
  | Finite _, Infinity => true
  | Infinity, _ => false
  end.

(** [attempts++] on a double: exact up to 2^53, where adding 1 rounds
    back to 2^53. *)
Definition increment (attempts : Z) : Z :=
  if attempts <? 2 ^ 53 then attempts + 1 else attempts.

(** Outcome of [await provider.getBalance(address, targetBlockNumber)];
    a rejection carries an [Error] with a message. *)
Inductive rpc_result :=
| RpcOk (balance : Z)
| RpcError (message : string).

(** How an observation of [fetchBalanceWithRetry] ends. *)
Inductive retry_exit :=
| Returned (balance : Z)      (* line 185: [return balance] *)
| Fallback                    (* lines 198-199: the code after the loop *)
| StillRetrying.              (* inside the loop after [fuel] attempts *)

(** The [while (attempts < MAX_RETRIES)] loop; [call k] is the outcome of
    the [k]-th balance request for the address (counting from 0). *)
Fixpoint retry_loop (MAX_RETRIES : jsnum) (call : nat -> rpc_result)
    (fuel : nat) (attempts : Z) (k : nat) : retry_exit :=
  if jsnum_ltb (Finite attempts) MAX_RETRIES then
    match fuel with
    | O => StillRetrying
    | S fuel' =>
        let attempts := increment attempts in
        match call k with
        | RpcOk balance => Returned balance
        | RpcError _ => retry_loop MAX_RETRIES call fuel' attempts (S k)
        end
    end
  else Fallback.

Definition fetchBalanceWithRetry (call : nat -> rpc_result) (fuel : nat)
  : retry_exit :=
  retry_loop Infinity call fuel 0 0.

(** The number of [provider.getBalance] calls the same loop has made:
    one at each iteration it has entered. *)
Fixpoint retry_requests (MAX_RETRIES : jsnum) (call : nat -> rpc_result)
    (fuel : nat) (attempts : Z) (k : nat) : nat :=
  if jsnum_ltb (Finite attempts) MAX_RETRIES then
    match fuel with
    | O => O
    | S fuel' =>
        let attempts := increment attempts in
        match call k with
        | RpcOk _ => 1
        | RpcError _ => S (retry_requests MAX_RETRIES call fuel' attempts (S k))
        end
    end
  else O.

(** The promise of the async function, [ethers.parseUnits('0', 'wei')]
    being 0n. *)
Definition retry_promise (r : retry_exit) : promise Z :=
  match r with
  | Returned balance => Fulfilled balance
  | Fallback => Fulfilled 0
  | StillRetrying => Pending
  end.

(** [rateLimiter.add(fn)] hands the outcome of [fn()] to the returned
    promise unchanged ([fn().then(resolve).catch(reject)]); when the task
    starts is the subject of module [RateLimiter]. *)
Definition rateLimiter_add {A} (fn : promise A) : promise A := fn.

Section Aggregation.
(** [ethers.formatEther], a function of the library. *)
Variable formatEther : Z -> string.

(** Lines 204-217: the task queued for one address, given the promise
    of [fetchBalanceWithRetry(address, targetBlockNumber)]. *)
Definition balance_task (fetched : promise Z) : promise Z :=
  promise_catch
    (promise_then fetched (fun balance => Fulfilled balance))
    (fun error => Fulfilled 0).

(** Lines 220-234: the joint await, the sum and its formatting; the
    [catch] logs and rethrows. *)
Definition await_balances (balances : list (promise Z)) : promise string :=
  promise_catch
    (promise_then (Promise_all balances)
       (fun balanceEth => Fulfilled (formatEther (fold_left Z.add balanceEth 0))))
    (fun error => Rejected error).

(** [getWalletBalance] over an arbitrary behaviour of the retry
    wrapper. *)
Definition sum_balances (fetch : string -> promise Z)
    (walletAddress : list string) : promise string :=
  await_balances
    (map (fun address => rateLimiter_add (balance_task (fetch address)))
       walletAddress).

(** [getWalletBalance]; [getBalance address blockTag k] is the outcome
    of the [k]-th request for [address]. *)
Definition getWalletBalance (getBalance : string -> Z -> nat -> rpc_result)
    (walletAddress : list string) (targetBlockNumber : Z) (fuel : nat)
  : promise string :=
  sum_balances
    (fun address =>
       retry_promise
         (fetchBalanceWithRetry (getBalance address targetBlockNumber) fuel))
    walletAddress.
End Aggregation.

(** *** main *)

(** What a run does that can be observed from outside. The balance
    requests of the different holders are interleaved by the rate
    limiter and the retry delays; [RequestedBalances] records, for each
    address, how many [getBalance] calls were made for it within the
    attempts observed, and no order between them. *)
Inductive effect :=
| LogFoundBlock (number timestamp : Z)
| LogCouldNotFind (targetUnixTimestamp : Z)
| QueriedWindow (fromBlock toBlock : Z)
| BuiltHolderMap (holderMap : gmap string string)
| RequestedBalances (requests : gmap string nat)
| LogTotalSum (totalSum : string).

(** A computation that leaves a trace of effects and ends as a promise. *)
Definition Run (A : Type) : Type := list effect * promise A.

Definition run_ret {A} (a : A) : Run A := ([], Fulfilled a).

Definition run_bind {A B} (m : Run A) (k : A -> Run B) : Run B :=
  match m with
  | (tr, Fulfilled a) => let (tr', r) := k a in (tr ++ tr', r)
  | (tr, Rejected e) => (tr, Rejected e)
  | (tr, Pending) => (tr, Pending)
  end.

Definition emit (e : effect) : Run unit := ([e], Fulfilled tt).

Local Notation "x <-- m ;; k" := (run_bind m (fun x => k))
  (at level 100, m at next level, right associativity).

(** The remote sources and the cache file a run starts from. *)
Record World := mkWorld {
  getBlockNumber : Z;
  getBlock : Z -> option Block;
  queryFilter : nat -> Z -> Z -> query_result;
  getBalance : string -> Z -> nat -> rpc_result;
  db : Table
}.

(** [block.number]; reading a property of [null] throws. *)
Definition block_number (block : option Block) : Run Z :=
  match block with
  | Some b => run_ret (number b)
  | None =>
      ([], Rejected (TypeError "Cannot read properties of null (reading 'number')"))
  end.

Definition run_sweep (l : loop Sweep) : Run Table :=
  (map (fun w => QueriedWindow (fst w) (snd w)) (windows (loop_state l)),
   match l with
   | Finished s => Fulfilled (cache s)
   | Running _ => Pending
   end).

(** A token id that [BigInt] refuses ends the run with its error. *)
Definition run_holder_map (fromBlock toBlock : Z) (t : Table)
  : Run (gmap string string) :=
  match getHolderMapByBlock fromBlock toBlock t with
  | Some holderMap => ([BuiltHolderMap holderMap], Fulfilled holderMap)
  | None => ([], Rejected (Error "Cannot convert to a BigInt"))
  end.

(** The [getBalance] calls made for each address of a set of holders,
    every retry included. *)
Definition balance_requests (getBalance : string -> Z -> nat -> rpc_result)
    (uniqueHolders : gset string) (targetBlockNumber : Z) (fuel : nat)
  : gmap string nat :=
  set_to_map
    (fun address =>
       (address, retry_requests Infinity (getBalance address targetBlockNumber) fuel 0 0))
    uniqueHolders.

Section Main.
Variable formatEther : Z -> string.

(** [main]. [uniqueHolders] is the [Set] of the values of the holder
    map. [Array.from] lists it in insertion order, which follows
    JavaScript's property order of [holderObject]; [elements] lists
    it in another order. Nothing recorded here depends on that order:
    the requests are recorded per address and the total is a sum. *)
Definition main (w : World) (fuel : nat) (targetUnixTimestamp : Z) : Run unit :=
  let block :=
    findBlockByTimestamp (getBlockNumber w) (getBlock w) targetUnixTimestamp in
  t <-- match block with
        | Some b =>
            _ <-- emit (LogFoundBlock (number b) (timestamp b)) ;;
            run_sweep (getTransactionThroughBlock (queryFilter w) (number b) (db w) fuel)
        | None =>
            _ <-- emit (LogCouldNotFind targetUnixTimestamp) ;;
            run_ret (db w)
        end ;;
  targetBlockNumber <-- block_number block ;;
  holderMap <-- run_holder_map startBlock targetBlockNumber t ;;
  let uniqueHolders : gset string := map_img holderMap in
  let uniqueHoldersArray := elements uniqueHolders in
  totalSum <-- ([RequestedBalances
                   (balance_requests (getBalance w) uniqueHolders
                      targetBlockNumber fuel)],
                getWalletBalance formatEther (getBalance w)
                  uniqueHoldersArray targetBlockNumber fuel) ;;
  emit (LogTotalSum totalSum).
End Main.

End App.

(** ** ratelimit.js : the interval rate limiter on the event loop *)

Module RateLimiter.

(** The four fields of the object, followed by what the event loop holds
    for it: the armed [setTimeout] callbacks with the time each was
    armed for, the tasks started and not yet settled, and the history of
    the run. Tasks are numbered in the order of the [add] calls; times
    are readings of [Date.now()] in milliseconds. *)
Record State := mkState {
  interval : Z;
  queue : list nat;
  lastDispatchTime : Z;
  timeoutId : option nat;
  timers : list (nat * Z);
  nextTimer : nat;
  running : list nat;
  starts : list (nat * Z);
  settled : list nat;
  submitted : nat;
  clock : Z
}.

(** [new RateLimiter(requestsPerSecond)]; the quotient is exact whenever
    the rate divides 1000, as it does for the program's
    [new RateLimiter(25)]. *)
Definition constructor (requestsPerSecond : Z) : State :=
  {| interval := 1000 / requestsPerSecond;
     queue := [];
     lastDispatchTime := 0;
     timeoutId := None;
     timers := [];
     nextTimer := 0;
     running := [];
     starts := [];
     settled := [];
     submitted := 0;
     clock := 0 |}.

(** First branch of [dispatch]: shift the oldest entry, record the
    dispatch time and call the task. *)
Definition start_next (now : Z) (task : nat) (rest : list nat) (s : State) : State :=
  {| interval := interval s;
     queue := rest;
     lastDispatchTime := now;
     timeoutId := timeoutId s;
     timers := timers s;
     nextTimer := nextTimer s;
     running := running s ++ [task];
     starts := starts s ++ [(task, now)];
     settled := settled s;
     submitted := submitted s;
     clock := clock s |}.

(** Second branch: [this.timeoutId = setTimeout(..., delay)]. *)
Definition arm_timer (now : Z) (s : State) : State :=
  let timeSinceLastDispatch := now - lastDispatchTime s in
  let delay := interval s - timeSinceLastDispatch in
  {| interval := interval s;
     queue := queue s;
     lastDispatchTime := lastDispatchTime s;
     timeoutId := Some (nextTimer s);
     timers := timers s ++ [(nextTimer s, now + delay)];
     nextTimer := S (nextTimer s);
     running := running s;
     starts := starts s;
     settled := settled s;
     submitted := submitted s;
     clock := clock s |}.

(** [dispatch()] when [Date.now()] reads [now]. *)
Definition dispatch (now : Z) (s : State) : State :=
  match timeoutId s with
  | Some _ => s
  | None =>
      let timeSinceLastDispatch := now - lastDispatchTime s in
      match queue s with
      | task :: rest =>
          if timeSinceLastDispatch >=? interval s then start_next now task rest s
          else arm_timer now s
      | [] => s
      end
  end.

(** [add(fn)]: push the entry, then [dispatch()]. *)
Definition add (now : Z) (s : State) : State :=
  dispatch now
    {| interval := interval s;
       queue := queue s ++ [submitted s];
       lastDispatchTime := lastDispatchTime s;
       timeoutId := timeoutId s;
       timers := timers s;
       nextTimer := nextTimer s;
       running := running s;
       starts := starts s;
       settled := settled s;
       submitted := S (submitted s);
       clock := now |}.

(** The [.finally] callback of a started task, run when the task's
    promise has settled (and the caller's promise with it). *)
Definition on_settled (task : nat) (now : Z) (s : State) : State :=
  dispatch now
    {| interval := interval s;
       queue := queue s;
       lastDispatchTime := lastDispatchTime s;
       timeoutId := None;
       timers := timers s;
       nextTimer := nextTimer s;
       running := filter (fun t => t <> task) (running s);
       starts := starts s;
       settled := settled s ++ [task];
       submitted := submitted s;
       clock := now |}.

(** The [setTimeout] callback. *)
Definition on_timeout (timer : nat) (now : Z) (s : State) : State :=
  dispatch now
    {| interval := interval s;
       queue := queue s;
       lastDispatchTime := lastDispatchTime s;
       timeoutId := None;
       timers := filter (fun p => fst p <> timer) (timers s);
       nextTimer := nextTimer s;
       running := running s;
       starts := starts s;
       settled := settled s;
       submitted := submitted s;
       clock := now |}.

Fixpoint timer_due (timer : nat) (ts : list (nat * Z)) : option Z :=
  match ts with
  | [] => None
  | (k, due) :: ts' => if Nat.eqb k timer then Some due else timer_due timer ts'
  end.

(** What the event loop can run next. *)
Inductive event :=
| Add (now : Z)
| Settle (task : nat) (now : Z)
| Fire (timer : nat) (now : Z).

Definition event_time (e : event) : Z :=
  match e with Add now | Settle _ now | Fire _ now => now end.

(** One turn of the event loop; [None] when the event cannot happen in
    this state: the clock never runs backwards, only a started and
    unsettled task settles, only an armed timer fires. The callback of
    an armed timer may run at any reading of [Date.now()], also one
    earlier than the time the timer was armed for: the code does not
    rely on the delay having elapsed, [dispatch] measures the time
    again and arms another timer if it is too early. *)
Definition step (e : event) (s : State) : option State :=
  if clock s <=? event_time e then
    match e with
    | Add now => Some (add now s)
    | Settle task now =>
        if bool_decide (task ∈ running s) then Some (on_settled task now s)
        else None
    | Fire timer now =>
        match timer_due timer (timers s) with
        | Some _ => Some (on_timeout timer now s)
        | None => None
        end
    end
  else None.

Fixpoint run (es : list event) (s : State) : option State :=
  match es with
  | [] => Some s
  | e :: es' =>
      match step e s with
      | Some s' => run es' s'
      | None => None
      end
  end.

End RateLimiter.

(** * Specification vocabulary *)

Module Spec.
Import EventCacheDB App RateLimiter.

(** [m] is the greatest [blockNumber] stored in [t]. *)
Definition highest_stored (t : Table) (m : Z) : Prop :=
  (exists r, r ∈ t /\ blockNumber r = m) /\ Forall (fun r => blockNumber r <= m) t.

(** Rows written by [bulkInsertEvents] hold token ids printed by
    [toString]. *)
Definition printed (t : Table) : Prop :=
  Forall (fun r => exists n, tokenId r = toString n) t.

(** On-chain order of two cached events: (height, log index),
    ascending. *)
Definition chain_order (e e' : CachedEvent) : Prop :=
  ce_blockNumber e < ce_blockNumber e'
  \/ (ce_blockNumber e = ce_blockNumber e' /\ ce_logIndex e <= ce_logIndex e').

(** The map key of an event's asset. *)
Definition asset (e : CachedEvent) : string := toString (args_tokenId (args e)).

Definition is_burn (e : CachedEvent) : Prop := args_to (args e) = zeroAddress.

(** The store of the end-to-end scenario:
    (100, 0, tx1, 0x0, Alice, "1") and (150, 0, tx2, Alice, Bob, "1"). *)
Definition seeded_store (tx1 tx2 alice bob : string) : Table :=
  [ {| blockNumber := 100; logIndex := 0; transactionHash := tx1;
       fromAddress := zeroAddress; toAddress := alice; tokenId := "1" |};
    {| blockNumber := 150; logIndex := 0; transactionHash := tx2;
       fromAddress := alice; toAddress := bob; tokenId := "1" |} ].

(** One adjustment of the chunk size: after a window that returned [n]
    logs, or after an error carrying a message. *)
Inductive adjustment :=
| AfterLogs (n : nat)
| AfterError (message : string).

Definition adjust (chunkSize : Z) (a : adjustment) : Z :=
  match a with
  | AfterLogs n => resize_after_success (Z.of_nat n) chunkSize
  | AfterError message => resize_after_error message chunkSize
  end.

(** What holds of a sweep resumed at height 150 towards height 200, as
    long as no window has succeeded, and after the one that did. *)
Definition resuming (s : Sweep) : Prop :=
  51 <= currentChunkSize s /\
  Forall (eq (150, 200)) (windows s) /\
  (currentBlock s <= 150 \/ currentBlock s = 201).

Definition chunk_in_bounds (chunkSize : Z) : Prop :=
  MIN_CHUNK_SIZE <= chunkSize <= MAX_CHUNK_SIZE.

(** The [k]-th balance request failed with an RPC error. *)
Definition failed (call : nat -> rpc_result) (k : nat) : Prop :=
  exists message, call k = RpcError message.

(** What a settled or stalled wrapper contributes to the total. *)
Definition counted (p : promise Z) : Z :=
  match p with
  | Fulfilled balance => balance
  | _ => 0
  end.

Definition has_settled {A} (p : promise A) : bool :=
  match p with
  | Pending => false
  | _ => true
  end.

(** A stand-in for [ethers.formatEther] in closed examples: the amount
    in wei, in decimal digits. *)
Definition wei_digits (wei : Z) : string := toString (Z.to_N wei).







(** Consecutive entries of a dispatch history are at least [d] apart. *)
Fixpoint spaced (d : Z) (l : list (nat * Z)) : Prop :=
  match l with
  | [] => True
  | (_, t) :: l' =>
      match l' with
      | [] => True
      | (_, t') :: _ => t' - t >= d /\ spaced d l'
      end
  end.

(** What holds of the limiter before [dispatch] runs inside an event. *)
Record limiter_pre (s : State) : Prop := {
  pre_clock : lastDispatchTime s <= clock s;
  pre_timers :
    Forall (fun p => (fst p < nextTimer s)%nat /\
                     snd p <= lastDispatchTime s + interval s) (timers s);
  pre_timer_ids : NoDup (map fst (timers s));
  pre_timeout : forall k, timeoutId s = Some k -> k ∈ map fst (timers s);
  pre_fifo : map fst (starts s) ++ queue s = seq 0 (submitted s);
  pre_spaced : spaced (interval s) (starts s);
  pre_last : forall task t, last (starts s) = Some (task, t) -> t = lastDispatchTime s;
  pre_tasks : running s ++ settled s ≡ₚ map fst (starts s)
}.

(** What holds between two events: a waiting entry always has a timer
    or a running task that will call [dispatch] again. *)
Definition limiter_inv (s : State) : Prop :=
  limiter_pre s /\
  (queue s <> [] -> timeoutId s <> None \/ running s <> []).


(** The columns of the UNIQUE constraint. *)
Definition key (r : Row) : Z * Z * string :=
  (blockNumber r, logIndex r, transactionHash r).

(** No two rows share the columns of the UNIQUE constraint. *)
Definition unique_keys (t : Table) : Prop := NoDup (map key t).

(** The event [getEventsByBlockRange] returns for a row that
    [bulkInsertEvents] wrote for [event]. *)
Definition cached_of_event (event : EventLog) : CachedEvent :=
  {| ce_blockNumber := ev_blockNumber event;
     ce_logIndex := ev_index event;
     ce_transactionHash := ev_transactionHash event;
     args := {| args_from := ev_args0 event;
                args_to := ev_args1 event;
                args_tokenId := ev_args2 event |} |}.

(** [format_row] on a row whose token id is decimal digits. *)
Definition decode_row (row : Row) : CachedEvent :=
  {| ce_blockNumber := blockNumber row;
     ce_logIndex := logIndex row;
     ce_transactionHash := transactionHash row;
     args := {| args_from := fromAddress row;
                args_to := toAddress row;
                args_tokenId := default 0%N (BigInt (tokenId row)) |} |}.

(** The store after a sequence of [bulkInsertEvents] calls on an empty
    table. *)
Definition written (batches : list (list EventLog)) : Table :=
  fold_left (fun t events => bulkInsertEvents events t) batches [].

(** Height [h] lies in a window of the sweep whose fetch succeeded. *)
Definition answered (queryFilter : nat -> Z -> Z -> query_result)
    (s : Sweep) (h : Z) : Prop :=
  exists i f t events,
    windows s !! i = Some (f, t) /\ f <= h <= t /\
    queryFilter i f t = QueryOk events.

(** Every event that a successful window returned has a row with its
    key in the cache. *)
Definition answers_stored (queryFilter : nat -> Z -> Z -> query_result)
    (s : Sweep) : Prop :=
  forall i f t events e,
    windows s !! i = Some (f, t) -> queryFilter i f t = QueryOk events ->
    e ∈ events -> key (row_of_event e) ∈ map key (cache s).

(** A window the sweep may query: not empty, not past the target, not
    before the genesis height, and of at most [MAX_CHUNK_SIZE] heights
    (both ends are queried, so the window [(f, t)] has [t - f + 1]
    heights). *)
Definition clipped (genesis target : Z) (w : Z * Z) : Prop :=
  genesis <= fst w /\ fst w <= snd w /\ snd w <= target /\
  snd w - fst w + 1 <= MAX_CHUNK_SIZE.

(** What holds of a sweep towards [maxBlock] at every iteration, for
    the heights from [resume] on. *)
Definition covering (queryFilter : nat -> Z -> Z -> query_result)
    (maxBlock resume : Z) (s : Sweep) : Prop :=
  currentBlock s <= maxBlock + 1 /\
  (forall h, resume <= h < currentBlock s -> answered queryFilter s h) /\
  answers_stored queryFilter s.

Definition well_windowed (genesis maxBlock : Z) (s : Sweep) : Prop :=
  chunk_in_bounds (currentChunkSize s) /\
  genesis <= currentBlock s /\
  Forall (clipped genesis maxBlock) (windows s).

(** The chunk size after a dense window, after an overflow error, and
    after a sparse window. *)
Definition shrunk (c : Z) : Z := Z.max MIN_CHUNK_SIZE (c * 3 / 4).
Definition halved (c : Z) : Z := Z.max MIN_CHUNK_SIZE (c / 2).
Definition grown (c : Z) : Z :=
  if c <? MAX_CHUNK_SIZE then Z.min MAX_CHUNK_SIZE (c * 5 / 4) else c.

(** The first request for a balance that succeeds is the [k]-th and
    returns [balance]. *)
Definition first_success (call : nat -> rpc_result) (k : nat) (balance : Z) : Prop :=
  call k = RpcOk balance /\ forall j, (j < k)%nat -> failed call j.


(** A remote source that serves a fixed chain of events: the answer to
    a window is the events of the chain in that window. *)
Definition chain_source (chain : list EventLog) : nat -> Z -> Z -> query_result :=
  fun _ fromBlock toBlock =>
    QueryOk (filter (fun e => fromBlock <= ev_blockNumber e <= toBlock) chain).

End Spec.

(** * Properties *)

Import EventCacheDB App RateLimiter Spec.

(** ** The event cache *)

Section CacheFacts.

Lemma fold_max_ge (l : list Z) (a : Z) :
  a <= fold_left Z.max l a /\ Forall (fun x => x <= fold_left Z.max l a) l.
Proof.
  revert a. induction l as [|x l IH]; intros a; simpl.
  - split; [lia | constructor].
  - destruct (IH (Z.max a x)) as [Ha Hl]. split; [lia|].
    constructor; [lia | exact Hl].
Qed.

Lemma fold_max_in (l : list Z) (a : Z) :
  fold_left Z.max l a = a \/ fold_left Z.max l a ∈ l.
Proof.
  revert a. induction l as [|x l IH]; intros a; simpl; [by left|].
  destruct (IH (Z.max a x)) as [H | H].
  - rewrite H. destruct (Z.max_spec a x) as [[_ ->] | [_ ->]];
      [right; left | by left].
  - right. by right.
Qed.

Lemma max_blockNumber_highest (t : Table) (m : Z) :
  highest_stored t m -> max_blockNumber t = Some m.
Proof.
  intros [(r & Hr & Hm) Hall]. destruct t as [|r0 t]; [by inversion Hr|].
  simpl. f_equal.
  pose proof (fold_max_ge (map blockNumber t) (blockNumber r0)) as [Hge Hges].
  assert (Hle : fold_left Z.max (map blockNumber t) (blockNumber r0) <= m).
  { destruct (fold_max_in (map blockNumber t) (blockNumber r0)) as [-> | Hin].
    - by inversion Hall.
    - apply list_elem_of_fmap in Hin as (r' & -> & Hr').
      rewrite Forall_forall in Hall. apply Hall.
      rewrite elem_of_cons. by right. }
  assert (Hm' : m <= fold_left Z.max (map blockNumber t) (blockNumber r0)).
  { apply elem_of_cons in Hr as [-> | Hr]; [lia|].
    rewrite Forall_forall in Hges. subst m. apply Hges.
    apply list_elem_of_fmap. eauto. }
  lia.
Qed.

Lemma toString_inj (n n' : N) : toString n = toString n' -> n = n'.
Proof.
  unfold toString. intros H.
  apply (f_equal NilEmpty.uint_of_string) in H.
  rewrite !NilEmpty.usu in H. injection H as H.
  apply (f_equal N.of_uint) in H. by rewrite !Unsigned.of_to in H.
Qed.

Lemma BigInt_toString (n : N) : BigInt (toString n) = Some n.
Proof.
  unfold BigInt, toString. rewrite NilEmpty.usu. simpl.
  by rewrite Unsigned.of_to.
Qed.

#[local] Instance order_by_total : Total order_by.
Proof. intros r r'. unfold order_by. lia. Qed.

#[local] Instance order_by_trans : Transitive order_by.
Proof. intros r1 r2 r3. unfold order_by. lia. Qed.

Lemma select_range_sorted fromBlock toBlock t :
  StronglySorted order_by (select_range fromBlock toBlock t).
Proof. apply StronglySorted_merge_sort; apply _. Qed.

Lemma select_range_perm fromBlock toBlock t :
  select_range fromBlock toBlock t ≡ₚ filter (in_range fromBlock toBlock) t.
Proof. apply merge_sort_Permutation. Qed.

Lemma select_range_elem fromBlock toBlock t r :
  r ∈ select_range fromBlock toBlock t <->
  r ∈ t /\ fromBlock <= blockNumber r <= toBlock.
Proof.
  rewrite select_range_perm, list_elem_of_filter. unfold in_range. tauto.
Qed.

Lemma insert_or_ignore_printed t r :
  printed t -> (exists n, tokenId r = toString n) -> printed (insert_or_ignore t r).
Proof.
  intros Ht Hr. unfold insert_or_ignore. destruct (existsb _ _); [done|].
  apply Forall_app. split; [done | by constructor].
Qed.

Lemma bulkInsertEvents_printed events t :
  printed t -> printed (bulkInsertEvents events t).
Proof.
  unfold bulkInsertEvents. revert t.
  induction events as [|e events IH]; intros t Ht; simpl; [done|].
  apply IH, insert_or_ignore_printed; [done|]. by exists (ev_args2 e).
Qed.

Lemma getEventsByBlockRange_printed fromBlock toBlock t :
  printed t -> is_Some (getEventsByBlockRange fromBlock toBlock t).
Proof.
  intros Ht. unfold getEventsByBlockRange.
  assert (Hsel : Forall (fun r => is_Some (format_row r))
                   (select_range fromBlock toBlock t)).
  { apply Forall_forall. intros r Hr.
    apply select_range_elem in Hr as [Hr _].
    unfold printed in Ht. rewrite Forall_forall in Ht.
    destruct (Ht r) as [n Hn]; [done|].
    unfold format_row. rewrite Hn, BigInt_toString. by eexists. }
  induction Hsel as [|r rows [e He] _ [es Hes]]; [by eexists|].
  exists (e :: es). apply mapM_Some. constructor; [done|].
  by apply mapM_Some.
Qed.
End CacheFacts.

(** C9. [GetHighestCachedBlock] answers -1 on an empty store and also on a
    store whose greatest stored block number is 0, because [0 || -1] is
    -1; on a store whose greatest stored block number is positive it
    answers that number. *)
Theorem GetHighestCachedBlock_zero_reads_as_empty (t : Table) (m : Z) :
  highest_stored t m ->
  GetHighestCachedBlock [] = -1 /\
  (m = 0 -> GetHighestCachedBlock t = -1) /\
  (0 < m -> GetHighestCachedBlock t = m).
Proof.
  intros Hmax. apply max_blockNumber_highest in Hmax.
  unfold GetHighestCachedBlock. rewrite Hmax. simpl.
  split; [reflexivity|]. split; intros Hm.
  - by subst m.
  - destruct (Z.eqb_spec m 0); [lia | reflexivity].
Qed.

Lemma GetHighestCachedBlock_zero_reads_as_empty_witness :
  highest_stored [mkRow 0 3 "0xaa" "0xf1" "0xf2" "7"] 0 /\
  GetHighestCachedBlock [mkRow 0 3 "0xaa" "0xf1" "0xf2" "7"] = -1.
Proof.
  assert (H : highest_stored [mkRow 0 3 "0xaa" "0xf1" "0xf2" "7"] 0).
  { split.
    - eexists. split; [apply list_elem_of_singleton; reflexivity | reflexivity].
    - constructor; [simpl; lia | constructor]. }
  split; [exact H|].
  apply (GetHighestCachedBlock_zero_reads_as_empty _ 0 H). reflexivity.
Defined.

(** ** The ledger replay *)

Section LedgerFacts.

Lemma replay_snoc (pre : list CachedEvent) (e : CachedEvent) :
  replay (pre ++ [e]) = holder_step (replay pre) e.
Proof. unfold replay. by rewrite fold_left_app. Qed.

Lemma last_transfer_app key (l1 l2 : list CachedEvent) :
  last_transfer key (l1 ++ l2) =
  match last_transfer key l2 with
  | Some e => Some e
  | None => last_transfer key l1
  end.
Proof.
  induction l1 as [|a l1 IH]; simpl.
  - by destruct (last_transfer key l2).
  - rewrite IH. by destruct (last_transfer key l2).
Qed.

Lemma last_transfer_other key (l : list CachedEvent) :
  Forall (fun e => asset e <> key) l -> last_transfer key l = None.
Proof.
  induction 1 as [|e l He _ IH]; simpl; [done|].
  rewrite IH. unfold asset in He.
  by destruct (String.eqb_spec (toString (args_tokenId (args e))) key).
Qed.

Lemma replay_reference (events : list CachedEvent) (key : string) :
  replay events !! key = reference_ledger events key.
Proof.
  induction events as [|e pre IH] using rev_ind.
  - unfold replay, reference_ledger. simpl. apply lookup_empty.
  - rewrite replay_snoc. unfold holder_step, reference_ledger in *.
    rewrite last_transfer_app. simpl.
    destruct (String.eqb_spec (toString (args_tokenId (args e))) key) as [Hk | Hk];
      destruct (String.eqb (args_to (args e)) zeroAddress).
    + subst key. apply lookup_delete_eq.
    + subst key. apply lookup_insert_eq.
    + by rewrite lookup_delete_ne.
    + by rewrite lookup_insert_ne.
Qed.

Lemma replay_after_burn (pre post : list CachedEvent) (e : CachedEvent) :
  is_burn e ->
  Forall (fun e' => args_tokenId (args e') <> args_tokenId (args e)) post ->
  replay (pre ++ e :: post) !! asset e = None.
Proof.
  intros Hburn Hpost. rewrite replay_reference. unfold reference_ledger.
  rewrite last_transfer_app. simpl.
  rewrite last_transfer_other.
  - fold (asset e). rewrite String.eqb_refl.
    unfold is_burn in Hburn. rewrite Hburn. by rewrite String.eqb_refl.
  - eapply Forall_impl; [exact Hpost|]. intros e' Hne Heq. apply Hne.
    by apply toString_inj.
Qed.

Lemma format_row_sorted (rows : list Row) (events : list CachedEvent) :
  Forall2 (fun r e => format_row r = Some e) rows events ->
  StronglySorted order_by rows -> StronglySorted chain_order events.
Proof.
  assert (Hkey : forall r e, format_row r = Some e ->
            ce_blockNumber e = blockNumber r /\ ce_logIndex e = logIndex r).
  { intros r e. unfold format_row. destruct (BigInt (tokenId r)); simpl; [|done].
    intros [= <-]. done. }
  induction 1 as [|r e rows events Hre Hall IH]; intros Hs; [constructor|].
  apply StronglySorted_inv in Hs as [Hs Hr]. constructor; [by apply IH|].
  clear IH Hs. induction Hall as [|r' e' rows events Hre' _ IH]; [constructor|].
  apply Forall_cons in Hr as [Hrr' Hr]. constructor; [|by apply IH].
  apply Hkey in Hre as [Hb Hl]. apply Hkey in Hre' as [Hb' Hl'].
  unfold chain_order. rewrite Hb, Hl, Hb', Hl'. exact Hrr'.
Qed.

End LedgerFacts.

(** C6. [getHolderMapByBlock] replays every cached event of the inclusive
    range, in (block number, log index) ascending order; each event either
    deletes its asset (recipient is the zero address) or sets the asset's
    owner to the recipient; for every event sequence, an asset whose last
    replayed event is a burn has no entry, whatever came before, and the
    resulting map is the reference ledger of the sequence. *)
Theorem getHolderMapByBlock_replays_in_chain_order
    (fromBlock toBlock : Z) (t : Table) (events : list CachedEvent) :
  getEventsByBlockRange fromBlock toBlock t = Some events ->
  (exists rows,
      rows ≡ₚ filter (in_range fromBlock toBlock) t /\
      Forall2 (fun r e => format_row r = Some e) rows events) /\
  StronglySorted chain_order events /\
  getHolderMapByBlock fromBlock toBlock t = Some (replay events) /\
  (forall pre e,
      replay (pre ++ [e]) =
      if decide (is_burn e) then delete (asset e) (replay pre)
      else <[asset e := args_to (args e)]> (replay pre)) /\
  (forall pre e post,
      is_burn e ->
      Forall (fun e' => args_tokenId (args e') <> args_tokenId (args e)) post ->
      replay (pre ++ e :: post) !! asset e = None) /\
  (forall sequence key, replay sequence !! key = reference_ledger sequence key).
Proof.
  intros Hget. pose proof Hget as Hrows.
  unfold getEventsByBlockRange in Hrows. apply mapM_Some in Hrows.
  repeat split.
  - exists (select_range fromBlock toBlock t).
    split; [apply select_range_perm | exact Hrows].
  - eapply format_row_sorted; [exact Hrows | apply select_range_sorted].
  - unfold getHolderMapByBlock. by rewrite Hget.
  - intros pre e. rewrite replay_snoc. unfold holder_step, is_burn, asset.
    destruct (String.eqb_spec (args_to (args e)) zeroAddress);
      case_decide; done.
  - intros pre e post Hburn Hpost. by apply replay_after_burn.
  - apply replay_reference.
Qed.

Lemma getHolderMapByBlock_replays_in_chain_order_witness :
  getHolderMapByBlock 100 200
    (bulkInsertEvents
       [mkEventLog 150 0 "tx2" "0xA1" zeroAddress 1;
        mkEventLog 100 0 "tx1" zeroAddress "0xA1" 1;
        mkEventLog 120 4 "tx3" zeroAddress "0xB2" 2] [])
  = Some {[ "2" := "0xB2" ]}.
Proof.
  destruct (getEventsByBlockRange 100 200
              (bulkInsertEvents
                 [mkEventLog 150 0 "tx2" "0xA1" zeroAddress 1;
                  mkEventLog 100 0 "tx1" zeroAddress "0xA1" 1;
                  mkEventLog 120 4 "tx3" zeroAddress "0xB2" 2] []))
    as [events|] eqn:Hget; [|vm_compute in Hget; discriminate].
  destruct (getHolderMapByBlock_replays_in_chain_order _ _ _ events Hget)
    as (_ & _ & Hmap & _).
  rewrite Hmap. vm_compute in Hget. injection Hget as <-.
  vm_compute. reflexivity.
Defined.

(** ** The ingestion sweep *)

Section SweepFacts.

Lemma resize_after_success_bounds (n c : Z) :
  chunk_in_bounds c -> chunk_in_bounds (resize_after_success n c).
Proof.
  unfold chunk_in_bounds, resize_after_success, MIN_CHUNK_SIZE, MAX_CHUNK_SIZE.
  intros Hc.
  destruct (resize_rule_for n c); simpl;
    unfold MIN_CHUNK_SIZE, MAX_CHUNK_SIZE; Z.div_mod_to_equations; lia.
Qed.

Lemma resize_after_error_bounds (message : string) (c : Z) :
  chunk_in_bounds c -> chunk_in_bounds (resize_after_error message c).
Proof.
  unfold chunk_in_bounds, resize_after_error, MIN_CHUNK_SIZE, MAX_CHUNK_SIZE.
  intros Hc. destruct (includes _ _); Z.div_mod_to_equations; lia.
Qed.

Lemma adjust_bounds (c : Z) (a : adjustment) :
  chunk_in_bounds c -> chunk_in_bounds (adjust c a).
Proof.
  destruct a; simpl;
    [apply resize_after_success_bounds | apply resize_after_error_bounds].
Qed.

Lemma sweep_body_bounds queryFilter highest maxBlock (s : Sweep) :
  chunk_in_bounds (currentChunkSize s) ->
  chunk_in_bounds (currentChunkSize (sweep_body queryFilter highest maxBlock s)).
Proof.
  intros Hc. unfold sweep_body.
  destruct (highest >? currentBlock s); [exact Hc|].
  destruct (queryFilter _ _ _); simpl;
    [by apply resize_after_success_bounds | by apply resize_after_error_bounds].
Qed.

Lemma sweep_loop_bounds queryFilter highest maxBlock (fuel : nat) (s : Sweep) :
  chunk_in_bounds (currentChunkSize s) ->
  chunk_in_bounds
    (currentChunkSize (loop_state (sweep_loop queryFilter highest maxBlock fuel s))).
Proof.
  revert s. induction fuel as [|fuel IH]; intros s Hc; simpl;
    destruct (currentBlock s <=? maxBlock); simpl; try done.
  by apply IH, sweep_body_bounds.
Qed.

End SweepFacts.

(** C5. Whatever the remote source answers and however long the sweep has
    run, the chunk size of [getTransactionThroughBlock], which starts at
    50000, lies in [100, 150000]; the same holds after any sequence of
    grow, shrink and error-halving adjustments applied to 50000. *)
Theorem chunk_size_always_within_bounds :
  (forall queryFilter targetBlockNumber db fuel,
      chunk_in_bounds
        (currentChunkSize
           (loop_state (getTransactionThroughBlock queryFilter targetBlockNumber db fuel))))
  /\ (forall adjustments : list adjustment,
         chunk_in_bounds (fold_left adjust adjustments 50000)).
Proof.
  assert (H0 : chunk_in_bounds 50000)
    by (unfold chunk_in_bounds, MIN_CHUNK_SIZE, MAX_CHUNK_SIZE; lia).
  split.
  - intros queryFilter targetBlockNumber db fuel.
    unfold getTransactionThroughBlock, sweep_from.
    destruct (GetHighestCachedBlock db >=? targetBlockNumber); [exact H0|].
    by apply sweep_loop_bounds.
  - intros adjustments. revert H0. generalize 50000.
    induction adjustments as [|a l IH]; intros c Hc; simpl; [exact Hc|].
    by apply IH, adjust_bounds.
Qed.

(** C4 (as the code has it). After a window that returned no log, the
    chunk size grows by a quarter, not by doubling: the test
    [events.length < 1000] comes first and takes the empty window too, so
    the doubling branch is taken for no event count and no chunk size. *)
Theorem empty_window_grows_by_a_quarter :
  resize_after_success 0 50000 = 62500 /\
  (forall c,
      resize_rule_for 0 c = if c <? MAX_CHUNK_SIZE then GrowQuarter else Keep) /\
  (forall n c, resize_rule_for n c <> Double).
Proof.
  split; [reflexivity|]. split.
  - intros c. unfold resize_rule_for. simpl.
    destruct (c <? MAX_CHUNK_SIZE); reflexivity.
  - intros n c. unfold resize_rule_for.
    destruct (n >=? MAX_LOGS_PER_QUERY); [done|].
    destruct (Z.ltb_spec n MIN_LOGS_TO_INCREASE_CHUNK) as [Hn | Hn];
      destruct (c <? MAX_CHUNK_SIZE); simpl; try done;
      destruct (Z.eqb_spec n 0) as [-> | _]; simpl; done.
Qed.

Section ResumeFacts.
Variable queryFilter : nat -> Z -> Z -> query_result.

Lemma resize_after_error_ge (message : string) (c : Z) :
  51 <= c -> 51 <= resize_after_error message c.
Proof.
  unfold resize_after_error, MIN_CHUNK_SIZE. destruct (includes _ _); lia.
Qed.

Lemma resuming_body (s : Sweep) :
  resuming s -> currentBlock s <= 200 ->
  resuming (sweep_body queryFilter 150 200 s).
Proof.
  intros (Hc & Hw & Hb) Hle. unfold sweep_body.
  destruct (Z.gtb_spec 150 (currentBlock s)) as [Hlt | Hge].
  - repeat split; simpl; [done | done | left; lia].
  - assert (Hcur : currentBlock s = 150) by lia.
    assert (Hto : Z.min (currentBlock s + currentChunkSize s - 1) 200 = 200) by lia.
    rewrite Hto, Hcur.
    destruct (queryFilter _ 150 200) as [events | message];
      repeat split; simpl.
    + unfold resize_after_success.
      destruct (resize_rule_for _ _); simpl;
        unfold MIN_CHUNK_SIZE, MAX_CHUNK_SIZE; Z.div_mod_to_equations; lia.
    + apply Forall_app. split; [done | by constructor].
    + by right.
    + by apply resize_after_error_ge.
    + apply Forall_app. split; [done | by constructor].
    + left; lia.
Qed.

Lemma resuming_loop (fuel : nat) (s : Sweep) :
  resuming s -> resuming (loop_state (sweep_loop queryFilter 150 200 fuel s)).
Proof.
  revert s. induction fuel as [|fuel IH]; intros s Hs; simpl;
    destruct (Z.leb_spec (currentBlock s) 200); simpl; try done.
  by apply IH, resuming_body.
Qed.

(** The sweep at height 150 after [j] failed calls: as long as the
    remote source reports errors the same window is queried again, and
    the first answer is stored and ends the sweep. *)
Lemma resumed_until_answered (k : nat) :
  forall (j : nat) (chunk : Z) (t : Table) (events : list EventLog) (fuel : nat),
    51 <= chunk ->
    (forall i, (i < k)%nat -> exists message,
          queryFilter (j + i)%nat 150 200 = QueryError message) ->
    queryFilter (j + k)%nat 150 200 = QueryOk events ->
    (k + 1 <= fuel)%nat ->
    exists chunk',
      sweep_loop queryFilter 150 200 fuel
        {| currentBlock := 150; currentChunkSize := chunk;
           cache := t; windows := replicate j (150, 200) |}
      = Finished
          {| currentBlock := 201; currentChunkSize := chunk';
             cache := bulkInsertEvents events t;
             windows := replicate (S (j + k)) (150, 200) |}.
Proof.
  induction k as [|k IH]; intros j chunk t events fuel Hc Herr Hok Hfuel;
    (destruct fuel as [|fuel]; [lia|]); simpl sweep_loop;
    unfold sweep_body; simpl currentBlock; simpl currentChunkSize;
    simpl windows; simpl cache; rewrite length_replicate;
    replace (Z.min (150 + chunk - 1) 200) with 200 by lia;
    change (150 <=? 200) with true; change (150 >? 150) with false;
    cbv iota.
  - rewrite Nat.add_0_r in Hok. rewrite Hok. eexists.
    rewrite Nat.add_0_r, replicate_S_end. by destruct fuel.
  - destruct (Herr 0%nat) as [message Hfail]; [lia|].
    rewrite Nat.add_0_r in Hfail. rewrite Hfail.
    rewrite <- replicate_S_end.
    destruct (IH (S j) (resize_after_error message chunk) t events fuel)
      as [chunk' Hrun].
    + by apply resize_after_error_ge.
    + intros i Hi. destruct (Herr (S i)) as [m Hm]; [lia|].
      exists m. by rewrite <- Hm, Nat.add_succ_r.
    + by rewrite <- Hok, Nat.add_succ_r.
    + lia.
    + exists chunk'. rewrite Hrun. by rewrite Nat.add_succ_r.
Qed.

Lemma resumed_first_answer (genesis chunk : Z) (t : Table)
    (k : nat) (events : list EventLog) (fuel : nat) :
  genesis <= 150 -> 51 <= chunk ->
  (forall i, (i < k)%nat -> exists message,
        queryFilter i 150 200 = QueryError message) ->
  queryFilter k 150 200 = QueryOk events -> (k + 2 <= fuel)%nat ->
  exists chunk',
    sweep_loop queryFilter 150 200 fuel
      {| currentBlock := genesis; currentChunkSize := chunk;
         cache := t; windows := [] |}
    = Finished
        {| currentBlock := 201; currentChunkSize := chunk';
           cache := bulkInsertEvents events t;
           windows := replicate (S k) (150, 200) |}.
Proof.
  intros Hg Hc Herr Hok Hfuel.
  destruct (Z.eq_dec genesis 150) as [-> | Hne].
  - apply (resumed_until_answered k 0 chunk t events fuel); try done. lia.
  - destruct fuel as [|fuel]; [lia|].
    change (sweep_loop queryFilter 150 200 (S fuel) ?s)
      with (if currentBlock s <=? 200
            then sweep_loop queryFilter 150 200 fuel
                   (sweep_body queryFilter 150 200 s)
            else Finished s).
    simpl currentBlock. destruct (Z.leb_spec genesis 200); [|lia].
    unfold sweep_body at 1. simpl currentBlock.
    destruct (Z.gtb_spec 150 genesis); [|lia].
    apply (resumed_until_answered k 0 chunk t events fuel); try done. lia.
Qed.
End ResumeFacts.

Lemma seeded_store_ledger (tx1 tx2 alice bob : string) :
  bob <> zeroAddress ->
  getHolderMapByBlock 100 200 (seeded_store tx1 tx2 alice bob)
  = Some {[ "1" := bob ]}.
Proof.
  intros Hbob. unfold getHolderMapByBlock.
  assert (Hget : getEventsByBlockRange 100 200 (seeded_store tx1 tx2 alice bob)
                 = Some [mkCachedEvent 100 0 tx1 (mkArgs zeroAddress alice 1);
                         mkCachedEvent 150 0 tx2 (mkArgs alice bob 1)])
    by reflexivity.
  rewrite Hget. simpl. f_equal.
  unfold replay. simpl. unfold holder_step. simpl args_to.
  change (toString (args_tokenId _)) with "1"%string.
  destruct (String.eqb_spec bob zeroAddress) as [|_]; [done|].
  destruct (String.eqb alice zeroAddress).
  - by rewrite delete_empty.
  - by rewrite insert_insert_eq.
Qed.

(** With the program's own genesis height the loop condition fails at
    once for a target of 200: no window is queried. *)
Example program_genesis_is_past_target :
  getTransactionThroughBlock (fun _ _ _ => QueryOk []) 200
    (seeded_store "tx1" "tx2" "0xA11ce" "0xB0b") 5
  = Finished {| currentBlock := 12286690; currentChunkSize := 50000;
                cache := seeded_store "tx1" "tx2" "0xA11ce" "0xB0b";
                windows := [] |}.
Proof. reflexivity. Qed.

(** An error that reports too many results halves the chunk and the same
    window start is queried again. *)
Example overflow_halves_and_retries :
  windows (loop_state
    (sweep_from 1000 50000
       (fun k _ _ => match k with
                     | O => QueryError "query returned more than 10000 results"
                     | _ => QueryOk []
                     end)
       100000 [] 2))
  = [(1000, 50999); (1000, 25999)].
Proof. reflexivity. Qed.

(** C1 (amended). For a store whose highest cached height is 150 and a
    target height of 200, with the genesis height at or below 150 and a
    chunk size of at least 51, the sweep resumes at the highest cached
    height itself: it queries the window [150, 200] and no other. As
    long as the remote source reports an error the same window is queried
    again; when the [k]-th call is the first one answered, the sweep ends
    having queried [150, 200] on each of its [k + 1] calls and having
    stored the events of that answer, so with a remote source that
    answers at once exactly one window, [150, 200], is queried. Whatever
    the remote source answers, no other window is ever queried. The
    seeded two-event store has highest cached height 150 and its replay
    over [100, 200] is the single-entry map from "1" to Bob. *)
Theorem resumed_sweep_queries_window_150_200 (genesis chunk : Z) (t : Table) :
  genesis <= 150 -> 51 <= chunk -> GetHighestCachedBlock t = 150 ->
  (forall queryFilter k events fuel,
      (forall i, (i < k)%nat -> exists message,
            queryFilter i 150 200 = QueryError message) ->
      queryFilter k 150 200 = QueryOk events -> (k + 2 <= fuel)%nat ->
      exists s,
        sweep_from genesis chunk queryFilter 200 t fuel = Finished s /\
        windows s = replicate (S k) (150, 200) /\
        cache s = bulkInsertEvents events t) /\
  (forall queryFilter fuel,
      Forall (eq (150, 200))
        (windows (loop_state (sweep_from genesis chunk queryFilter 200 t fuel)))) /\
  (forall tx1 tx2 alice bob,
      bob <> zeroAddress ->
      GetHighestCachedBlock (seeded_store tx1 tx2 alice bob) = 150 /\
      getHolderMapByBlock 100 200 (seeded_store tx1 tx2 alice bob)
      = Some {[ "1" := bob ]}).
Proof.
  intros Hg Hc Hh. repeat split.
  - intros queryFilter k events fuel Herr Hok Hfuel. unfold sweep_from.
    rewrite Hh. simpl.
    destruct (resumed_first_answer queryFilter genesis chunk t k events fuel)
      as [chunk' Hrun]; try done.
    rewrite Hrun. by eexists.
  - intros queryFilter fuel. unfold sweep_from. rewrite Hh. simpl.
    apply resuming_loop. repeat split; simpl; [done | constructor | by left].
  - by apply seeded_store_ledger.
Qed.

(** A remote source that fails once with a network error and then
    answers: the window [150, 200] is queried twice. *)
Lemma resumed_sweep_queries_window_150_200_witness :
  windows (loop_state
    (sweep_from 100 50000
       (fun k _ _ => match k with
                     | O => QueryError "socket hang up"
                     | _ => QueryOk []
                     end)
       200 (seeded_store "tx1" "tx2" "0xA11ce" "0xB0b") 3))
  = [(150, 200); (150, 200)].
Proof.
  destruct (resumed_sweep_queries_window_150_200 100 50000
              (seeded_store "tx1" "tx2" "0xA11ce" "0xB0b"))
    as [Hone _]; [lia | lia | reflexivity |].
  destruct (Hone (fun k _ _ => match k with
                               | O => QueryError "socket hang up"
                               | _ => QueryOk []
                               end) 1%nat [] 3%nat) as (s & Hs & Hw & _).
  - intros [|i] Hi; [by eexists | lia].
  - reflexivity.
  - lia.
  - rewrite Hs. exact Hw.
Defined.

(** C1 as stated fails: in the scenario the one window queried is
    [150, 200], not [151, 200]. *)
Lemma resumed_sweep_window_is_not_151_200 :
  windows (loop_state
    (sweep_from 100 50000 (fun _ _ _ => QueryOk []) 200
       (seeded_store "tx1" "tx2" "0xA11ce" "0xB0b") 5))
  = [(150, 200)] /\
  windows (loop_state
    (sweep_from 100 50000 (fun _ _ _ => QueryOk []) 200
       (seeded_store "tx1" "tx2" "0xA11ce" "0xB0b") 5))
  <> [(151, 200)].
Proof. split; [reflexivity | discriminate]. Qed.

(** ** The retry wrapper *)

Section RetryFacts.
Variable call : nat -> rpc_result.

Lemma retry_loop_unbounded (fuel : nat) (attempts : Z) (k : nat) :
  match retry_loop Infinity call fuel attempts k with
  | Returned balance =>
      exists i, (i < fuel)%nat /\ call (k + i)%nat = RpcOk balance /\
                forall j, (j < i)%nat -> failed call (k + j)%nat
  | Fallback => False
  | StillRetrying => forall j, (j < fuel)%nat -> failed call (k + j)%nat
  end.
Proof.
  revert attempts k. induction fuel as [|fuel IH]; intros attempts k; simpl.
  - intros j Hj. lia.
  - destruct (call k) as [balance | message] eqn:Hk.
    + exists 0%nat. rewrite Nat.add_0_r. repeat split; [lia | done | intros; lia].
    + specialize (IH (increment attempts) (S k)).
      assert (Hshift : forall j, (j <> 0)%nat ->
                failed call (S k + (j - 1))%nat -> failed call (k + j)%nat).
      { intros j Hj. by replace (S k + (j - 1))%nat with (k + j)%nat by lia. }
      assert (Hhere : failed call (k + 0)%nat).
      { rewrite Nat.add_0_r. by exists message. }
      destruct (retry_loop Infinity call fuel (increment attempts) (S k));
        [|done|].
      * destruct IH as (i & Hi & Hok & Hbefore). exists (S i).
        replace (k + S i)%nat with (S k + i)%nat by lia.
        repeat split; [lia | done |]. intros j Hj.
        destruct (decide (j = 0%nat)) as [-> | Hne]; [done|].
        apply Hshift; [done|]. apply Hbefore. lia.
      * intros j Hj.
        destruct (decide (j = 0%nat)) as [-> | Hne]; [done|].
        apply Hshift; [done|]. apply IH. lia.
Qed.

Lemma retry_loop_returns (i fuel : nat) (attempts : Z) (k : nat) (balance : Z) :
  call (k + i)%nat = RpcOk balance ->
  (forall j, (j < i)%nat -> failed call (k + j)%nat) ->
  (i < fuel)%nat ->
  retry_loop Infinity call fuel attempts k = Returned balance.
Proof.
  revert fuel attempts k.
  induction i as [|i IH]; intros fuel attempts k Hok Hbefore Hfuel;
    (destruct fuel as [|fuel]; [lia|]); simpl.
  - rewrite Nat.add_0_r in Hok. by rewrite Hok.
  - destruct (Hbefore 0%nat) as [message Hk]; [lia|].
    rewrite Nat.add_0_r in Hk. rewrite Hk.
    apply IH; [by replace (S k + i)%nat with (k + S i)%nat by lia | | lia].
    intros j Hj. replace (S k + j)%nat with (k + S j)%nat by lia.
    apply Hbefore. lia.
Qed.
End RetryFacts.

(** With a finite bound the code after the loop is reached: three failed
    attempts under [MAX_RETRIES = 3] end in the fallback. *)
Example bounded_retry_reaches_fallback :
  retry_loop (Finite 3) (fun _ => RpcError "timeout") 10 0 0 = Fallback.
Proof. reflexivity. Qed.

(** C8. In [fetchBalanceWithRetry] the code after the loop, which would
    return a zero balance, is never executed: however long the wrapper is
    observed, it has either returned the balance of the first request that
    succeeded, or every request so far has failed and it is still
    retrying; and it does return as soon as a request succeeds. *)
Theorem retry_fallback_is_unreachable (call : nat -> rpc_result) (fuel : nat) :
  fetchBalanceWithRetry call fuel <> Fallback /\
  (forall balance,
      fetchBalanceWithRetry call fuel = Returned balance ->
      exists k, (k < fuel)%nat /\ call k = RpcOk balance /\
                forall j, (j < k)%nat -> failed call j) /\
  (fetchBalanceWithRetry call fuel = StillRetrying ->
   forall j, (j < fuel)%nat -> failed call j) /\
  (forall k balance,
      call k = RpcOk balance -> (forall j, (j < k)%nat -> failed call j) ->
      (k < fuel)%nat -> fetchBalanceWithRetry call fuel = Returned balance).
Proof.
  unfold fetchBalanceWithRetry.
  pose proof (retry_loop_unbounded call fuel 0 0) as H.
  repeat split.
  - intros Hf. by rewrite Hf in H.
  - intros balance Hr. by rewrite Hr in H.
  - intros Hs. by rewrite Hs in H.
  - intros k balance Hok Hbefore Hk. by apply (retry_loop_returns call k).
Qed.

(** ** The balance aggregation *)

Section AggregationFacts.
Variable formatEther : Z -> string.

Lemma balance_task_counted (fetched : promise Z) :
  balance_task fetched =
  match fetched with
  | Pending => Pending
  | _ => Fulfilled (counted fetched)
  end.
Proof. by destruct fetched. Qed.

Lemma Promise_all_fulfilled {A} (vs : list A) :
  Promise_all (map Fulfilled vs) = Fulfilled vs.
Proof.
  unfold Promise_all.
  assert (Hr : first_rejection (map Fulfilled vs) = None)
    by (induction vs; simpl; done).
  assert (Hv : all_values (map Fulfilled vs) = Some vs).
  { induction vs as [|v vs IH]; simpl; [done|]. by rewrite IH. }
  by rewrite Hr, Hv.
Qed.

Lemma first_rejection_elem {A} (ps : list (promise A)) (e : js_error) :
  Rejected e ∈ ps ->
  exists e', first_rejection ps = Some e' /\ Rejected e' ∈ ps.
Proof.
  induction ps as [|p ps IH]; intros Hin; [by apply elem_of_nil in Hin|].
  destruct p as [v | e0 |]; simpl.
  - apply elem_of_cons in Hin as [? | Hin]; [done|].
    destruct (IH Hin) as (e' & He' & Hin'). exists e'.
    split; [done | by apply list_elem_of_further].
  - exists e0. split; [done | apply list_elem_of_here].
  - apply elem_of_cons in Hin as [? | Hin]; [done|].
    destruct (IH Hin) as (e' & He' & Hin'). exists e'.
    split; [done | by apply list_elem_of_further].
Qed.

Lemma Promise_all_tasks (fetch : string -> promise Z) (owners : list string) :
  Promise_all (map (fun a => rateLimiter_add (balance_task (fetch a))) owners) =
  if forallb (fun a => has_settled (fetch a)) owners
  then Fulfilled (map (fun a => counted (fetch a)) owners)
  else Pending.
Proof.
  unfold rateLimiter_add, Promise_all.
  assert (Hr : first_rejection (map (fun a => balance_task (fetch a)) owners) = None).
  { induction owners as [|a owners IH]; simpl; [done|].
    rewrite balance_task_counted. by destruct (fetch a). }
  rewrite Hr.
  assert (Hv : all_values (map (fun a => balance_task (fetch a)) owners) =
               if forallb (fun a => has_settled (fetch a)) owners
               then Some (map (fun a => counted (fetch a)) owners) else None).
  { clear Hr. induction owners as [|a owners IH]; simpl; [done|].
    rewrite balance_task_counted.
    destruct (fetch a); simpl; try done; rewrite IH;
      by destruct (forallb _ owners). }
  rewrite Hv. by destruct (forallb _ owners).
Qed.
End AggregationFacts.

(** C2. The per-owner promises are awaited jointly: if one of the
    promises handed to the joint await of [getWalletBalance] rejects,
    then, whatever the others did and even while some are still pending,
    the aggregation rejects, with the reason of a rejected per-owner
    promise; it does not fulfil, so no total, partial or not, is returned
    to the caller, and it does not stay pending. *)
Theorem rejected_future_rejects_the_aggregation
    (formatEther : Z -> string) (balances : list (promise Z)) (e : js_error) :
  Rejected e ∈ balances ->
  (exists e', Rejected e' ∈ balances /\
              await_balances formatEther balances = Rejected e') /\
  (forall total, await_balances formatEther balances <> Fulfilled total) /\
  await_balances formatEther balances <> Pending.
Proof.
  intros Hin. unfold await_balances, Promise_all.
  destruct (first_rejection_elem balances e Hin) as (e' & -> & Hin').
  simpl. split; [by exists e' | by split].
Qed.

Lemma rejected_future_rejects_the_aggregation_witness :
  await_balances wei_digits
    [Fulfilled 7; Pending; Rejected (TypeError "completed is not defined"); Fulfilled 5]
  = Rejected (TypeError "completed is not defined").
Proof.
  destruct (rejected_future_rejects_the_aggregation wei_digits
              [Fulfilled 7; Pending;
               Rejected (TypeError "completed is not defined"); Fulfilled 5]
              (TypeError "completed is not defined"))
    as [(e' & Hin & Hawait) _].
  - apply list_elem_of_further, list_elem_of_further, list_elem_of_here.
  - rewrite Hawait. f_equal.
    apply elem_of_cons in Hin as [Hin | Hin]; [discriminate|].
    apply elem_of_cons in Hin as [Hin | Hin]; [discriminate|].
    apply elem_of_cons in Hin as [Hin | Hin]; [by injection Hin|].
    apply elem_of_cons in Hin as [Hin | Hin]; [discriminate|].
    by apply elem_of_nil in Hin.
Defined.

(** X28. A rejection of the retry wrapper, or of the completion handler
    chained on it, never reaches the joint await: the task's own [catch]
    handler replaces it by a zero balance, so no per-owner promise built
    by [getWalletBalance] rejects; when every wrapper has settled the
    aggregation fulfils with the formatted sum in which a rejected
    wrapper counts as zero, and it stays pending while a wrapper is still
    retrying. *)
Theorem sum_balances_counts_a_rejected_wrapper_as_zero
    (formatEther : Z -> string) (fetch : string -> promise Z)
    (walletAddress : list string) :
  (forall address e, balance_task (fetch address) <> Rejected e) /\
  sum_balances formatEther fetch walletAddress =
    (if forallb (fun address => has_settled (fetch address)) walletAddress
     then Fulfilled
            (formatEther
               (fold_left Z.add
                  (map (fun address => counted (fetch address)) walletAddress) 0))
     else Pending).
Proof.
  split.
  - intros address e. rewrite balance_task_counted. by destruct (fetch address).
  - unfold sum_balances, await_balances. rewrite Promise_all_tasks.
    by destruct (forallb _ walletAddress).
Qed.

(** The wrapper of the first owner rejects with a TypeError (as it does
    when the balance request rejects with null, so that reading
    [error.message] throws inside the wrapper's [catch] block): the
    task's handler counts it as zero and the aggregation fulfils with the
    balance of the second owner. *)
Example rejected_wrapper_counts_as_zero :
  sum_balances wei_digits
    (fun address =>
       if String.eqb address "0xA1"
       then Rejected (TypeError "Cannot read properties of null (reading 'message')")
       else Fulfilled 5)
    ["0xA1"; "0xB2"]
  = Fulfilled "5".
Proof. reflexivity. Qed.

(** ** Checkpoint search and [main] *)

Section SearchFacts.
Variable getBlock : Z -> option Block.
Variable targetTimestamp : Z.

(** The loop never runs out of iterations when given one per height of
    the interval. *)
Lemma search_loop_enough_fuel (fuel : nat) (startBlock endBlock : Z) :
  endBlock + 1 - startBlock <= Z.of_nat fuel ->
  is_Some (search_loop fuel getBlock targetTimestamp startBlock endBlock).
Proof.
  revert startBlock endBlock.
  induction fuel as [|fuel IH]; intros startBlock endBlock Hfuel; simpl;
    destruct (Z.leb_spec startBlock endBlock) as [Hle | Hgt];
    try (by eexists); [lia|].
  assert (Hmid : startBlock <= (startBlock + endBlock) / 2 <= endBlock)
    by (Z.div_mod_to_equations; lia).
  destruct (getBlock _) as [block|]; [|by eexists].
  destruct (Z.abs _ <=? tolerance); [by eexists|].
  destruct (timestamp block <? targetTimestamp); apply IH; lia.
Qed.

(** A checkpoint fetch that returns nothing ends the search without a
    block. *)
Lemma search_loop_missing_block (fuel : nat) (startBlock endBlock : Z) :
  startBlock <= endBlock ->
  getBlock ((startBlock + endBlock) / 2) = None ->
  search_loop (S fuel) getBlock targetTimestamp startBlock endBlock = Some None.
Proof.
  intros Hle Hnone. simpl.
  destruct (Z.leb_spec startBlock endBlock); [|lia]. by rewrite Hnone.
Qed.

(** So does an interval that collapses: here, when every checkpoint is
    more than the tolerance older than the target. *)
Lemma search_loop_collapses (fuel : nat) (startBlock endBlock : Z) :
  (forall h block, getBlock h = Some block ->
                   timestamp block < targetTimestamp - tolerance) ->
  endBlock + 1 - startBlock <= Z.of_nat fuel ->
  search_loop fuel getBlock targetTimestamp startBlock endBlock = Some None.
Proof.
  intros Hold. revert startBlock endBlock.
  induction fuel as [|fuel IH]; intros startBlock endBlock Hfuel; simpl;
    destruct (Z.leb_spec startBlock endBlock) as [Hle | Hgt];
    try done; [lia|].
  assert (Hmid : startBlock <= (startBlock + endBlock) / 2 <= endBlock)
    by (Z.div_mod_to_equations; lia).
  destruct (getBlock _) as [block|] eqn:Hb; [|done].
  apply Hold in Hb. unfold tolerance in *.
  destruct (Z.leb_spec (Z.abs (timestamp block - targetTimestamp)) 300); [lia|].
  destruct (Z.ltb_spec (timestamp block) targetTimestamp); [|lia].
  apply IH. lia.
Qed.
End SearchFacts.

(** C10. When the checkpoint search returns no block, [main] logs that it
    could not find one and then evaluates [block.number] on null: the run
    ends with that TypeError, and nothing else has happened, neither a
    window query, nor a holder map, nor a balance request, nor a total.
    The search returns no block in particular when the fetch of the first
    midpoint returns nothing, and when the interval collapses because every
    checkpoint is too old for the target. *)
Theorem main_throws_on_missing_block
    (formatEther : Z -> string) (w : World) (fuel : nat) (targetUnixTimestamp : Z) :
  findBlockByTimestamp (getBlockNumber w) (getBlock w) targetUnixTimestamp = None ->
  main formatEther w fuel targetUnixTimestamp =
    ([LogCouldNotFind targetUnixTimestamp],
     Rejected (TypeError "Cannot read properties of null (reading 'number')"))
  /\ (forall getBlockNumber getBlock,
         0 <= getBlockNumber -> getBlock (getBlockNumber / 2) = None ->
         findBlockByTimestamp getBlockNumber getBlock targetUnixTimestamp = None)
  /\ (forall getBlockNumber getBlock,
         (forall h block, getBlock h = Some block ->
                          timestamp block < targetUnixTimestamp - tolerance) ->
         findBlockByTimestamp getBlockNumber getBlock targetUnixTimestamp = None).
Proof.
  intros Hnull. repeat split.
  - unfold main. by rewrite Hnull.
  - intros n gb Hn Hmid. unfold findBlockByTimestamp.
    replace (Z.to_nat (n + 1)) with (S (Z.to_nat n)) by lia.
    by rewrite search_loop_missing_block.
  - intros n gb Hold. unfold findBlockByTimestamp.
    rewrite search_loop_collapses; [done | done | lia].
Qed.

Lemma main_throws_on_missing_block_witness :
  main wei_digits
    (mkWorld 1000 (fun _ => None) (fun _ _ _ => QueryOk [])
       (fun _ _ _ => RpcOk 1) [])
    3 1700000000
  = ([LogCouldNotFind 1700000000],
     Rejected (TypeError "Cannot read properties of null (reading 'number')")).
Proof.
  apply (main_throws_on_missing_block wei_digits
           (mkWorld 1000 (fun _ => None) (fun _ _ _ => QueryOk [])
              (fun _ _ _ => RpcOk 1) []) 3 1700000000).
  reflexivity.
Defined.

(** ** The rate limiter *)

Section LimiterFacts.

Lemma dispatch_cases (now : Z) (s : State) :
  ((timeoutId s <> None \/ queue s = []) /\ dispatch now s = s)
  \/ (exists task rest,
         timeoutId s = None /\ queue s = task :: rest /\
         now - lastDispatchTime s >= interval s /\
         dispatch now s = start_next now task rest s)
  \/ (exists task rest,
         timeoutId s = None /\ queue s = task :: rest /\
         now - lastDispatchTime s < interval s /\
         dispatch now s = arm_timer now s).
Proof.
  unfold dispatch. destruct (timeoutId s) as [k|]; [left; split; [left|]; done|].
  destruct (queue s) as [|task rest]; [left; split; [right|]; done|].
  destruct (Z.geb_spec (now - lastDispatchTime s) (interval s)).
  - right; left. exists task, rest. repeat split; [lia].
  - right; right. exists task, rest. repeat split; lia.
Qed.

Lemma spaced_snoc (d : Z) (l : list (nat * Z)) (task : nat) (t : Z) :
  spaced d l ->
  (forall task0 t0, last l = Some (task0, t0) -> t - t0 >= d) ->
  spaced d (l ++ [(task, t)]).
Proof.
  induction l as [|[a ta] l IH]; intros Hs Hlast; simpl; [done|].
  destruct l as [|[b tb] l]; simpl in *.
  - split; [by eapply Hlast | done].
  - destruct Hs as [Hab Hs]. split; [done|]. apply IH; [done|].
    intros task0 t0 H0. by eapply Hlast.
Qed.

Lemma dispatch_inv (now : Z) (s : State) :
  limiter_pre s -> clock s = now -> limiter_inv (dispatch now s).
Proof.
  intros [Hclock Htimers Hids Htimeout Hfifo Hspaced Hlast Htasks] Hnow.
  destruct (dispatch_cases now s)
    as [[Hidle ->] | [(task & rest & Hnone & Hq & Hdue & ->)
                     | (task & rest & Hnone & Hq & Hearly & ->)]].
  - split; [by constructor|]. intros Hne. destruct Hidle; [by left | done].
  - split; [|intros _; right; simpl; by destruct (running s)].
    constructor; simpl; try done.
    + lia.
    + eapply Forall_impl; [exact Htimers|]. simpl. intros p [? ?]. split; lia.
    + rewrite map_app, <- Hfifo, Hq. simpl. by rewrite <- app_assoc.
    + apply spaced_snoc; [done|]. intros task0 t0 H0.
      apply Hlast in H0. lia.
    + intros task0 t0. rewrite last_snoc. by intros [= _ <-].
    + rewrite map_app. simpl. rewrite <- Htasks.
      rewrite <- !app_assoc. apply Permutation_app_head, Permutation_app_comm.
  - split; [|intros _; left; done].
    constructor; simpl; try done.
    + apply Forall_app. split.
      * eapply Forall_impl; [exact Htimers|]. simpl. intros p [? ?]. split; lia.
      * constructor; [simpl; split; lia | constructor].
    + rewrite map_app. simpl. apply NoDup_app. split; [done|]. split.
      * intros k Hk ->%list_elem_of_singleton.
        apply list_elem_of_fmap in Hk as ([k' due] & Heq & Hin).
        rewrite Forall_forall in Htimers. apply Htimers in Hin.
        simpl in Hin, Heq. lia.
      * apply NoDup_singleton.
    + intros k [= <-]. rewrite map_app. apply elem_of_app. right.
      by apply list_elem_of_singleton.
Qed.
End LimiterFacts.

Section LimiterSteps.

Lemma filter_all {A} (P : A -> Prop) `{forall x, Decision (P x)} (l : list A) :
  Forall P l -> filter P l = l.
Proof.
  induction 1 as [|x l Hx _ IH]; [done|].
  rewrite filter_cons_True by done. by rewrite IH.
Qed.

(** Removing by a key that occurs once removes exactly one element. *)
Lemma remove_by_key {A} (f : A -> nat) (l : list A) (x : A) :
  NoDup (map f l) -> x ∈ l ->
  l ≡ₚ x :: filter (fun y => f y <> f x) l.
Proof.
  induction l as [|a l IH]; intros Hnd Hx; [by apply elem_of_nil in Hx|].
  simpl in Hnd. apply NoDup_cons in Hnd as [Ha Hnd].
  apply elem_of_cons in Hx as [-> | Hx].
  - rewrite filter_cons_False by (intros Hne; by apply Hne).
    rewrite filter_all; [done|].
    apply Forall_forall. intros y Hy Heq. apply Ha. rewrite <- Heq.
    by apply list_elem_of_fmap_2.
  - assert (Hne : f a <> f x).
    { intros Heq. apply Ha. rewrite Heq. by apply list_elem_of_fmap_2. }
    rewrite filter_cons_True by done.
    rewrite (IH Hnd Hx) at 1. apply Permutation_swap.
Qed.

Lemma NoDup_map_filter {A B} (f : A -> B) (P : A -> Prop)
    `{forall x, Decision (P x)} (l : list A) :
  NoDup (map f l) -> NoDup (map f (filter P l)).
Proof.
  induction l as [|a l IH]; simpl; [done|].
  intros [Ha Hnd]%NoDup_cons. rewrite filter_cons.
  destruct (decide (P a)); [|by apply IH]. simpl.
  apply NoDup_cons. split; [|by apply IH].
  intros (y & Hy & [_ Hin]%list_elem_of_filter)%list_elem_of_fmap.
  apply Ha. rewrite Hy. by apply list_elem_of_fmap_2.
Qed.



Lemma started_once (s : State) : limiter_pre s -> NoDup (running s).
Proof.
  intros Hpre.
  assert (Hnd : NoDup (map fst (starts s) ++ queue s)).
  { rewrite (pre_fifo s Hpre). apply NoDup_seq. }
  apply NoDup_app in Hnd as [Hnd _].
  rewrite <- (pre_tasks s Hpre) in Hnd. by apply NoDup_app in Hnd as [? _].
Qed.

Lemma step_inv (e : event) (s s' : State) :
  limiter_inv s -> step e s = Some s' -> limiter_inv s'.
Proof.
  intros [Hpre Hprogress] Hstep. unfold step in Hstep.
  destruct (Z.leb_spec (clock s) (event_time e)) as [Htime | _]; [|done].
  pose proof Hpre as [Hclock Htimers Hids Htimeout Hfifo Hspaced Hlast Htasks].
  destruct e as [now | task now | timer now]; simpl in Htime.
  - injection Hstep as <-. apply dispatch_inv; [|done].
    constructor; cbn -[seq]; try done; [lia|].
    rewrite app_assoc, Hfifo. by rewrite seq_S.
  - case_bool_decide as Hrun; [|done]. injection Hstep as <-.
    apply dispatch_inv; [|done].
    constructor; simpl; try done; [lia|].
    rewrite <- Htasks.
    rewrite (remove_by_key id (running s) task) at 2;
      [|rewrite map_id; by apply started_once | done].
    simpl. unfold id.
    rewrite app_assoc. by rewrite <- Permutation_cons_append.
  - destruct (timer_due timer (timers s)) as [due|] eqn:Hdue; [|done].
    injection Hstep as <-.
    apply dispatch_inv; [|done].
    constructor; simpl; try done; [lia | |].
    + apply Forall_forall. intros p [_ Hp]%list_elem_of_filter.
      rewrite Forall_forall in Htimers. by apply Htimers.
    + by apply NoDup_map_filter.
Qed.

Lemma constructor_inv (requestsPerSecond : Z) :
  limiter_inv (constructor requestsPerSecond).
Proof.
  split; [|done]. constructor; simpl; try done; constructor.
Qed.

Lemma run_inv (es : list event) (s s' : State) :
  limiter_inv s -> run es s = Some s' -> limiter_inv s'.
Proof.
  revert s. induction es as [|e es IH]; intros s Hinv; simpl.
  - by intros [= <-].
  - destruct (step e s) as [s1|] eqn:Hstep; [|done].
    apply IH. by eapply step_inv.
Qed.

Lemma dispatch_interval (now : Z) (s : State) :
  interval (dispatch now s) = interval s.
Proof.
  destruct (dispatch_cases now s)
    as [[_ ->] | [(? & ? & _ & _ & _ & ->) | (? & ? & _ & _ & _ & ->)]]; done.
Qed.

Lemma step_interval (e : event) (s s' : State) :
  step e s = Some s' -> interval s' = interval s.
Proof.
  unfold step. destruct (clock s <=? event_time e); [|done].
  destruct e as [now | task now | timer now].
  - intros [= <-]. unfold add. by rewrite dispatch_interval.
  - case_bool_decide; [|done]. intros [= <-]. unfold on_settled.
    by rewrite dispatch_interval.
  - destruct (timer_due _ _); [|done].
    intros [= <-]. unfold on_timeout. by rewrite dispatch_interval.
Qed.

Lemma run_interval (es : list event) (s s' : State) :
  run es s = Some s' -> interval s' = interval s.
Proof.
  revert s. induction es as [|e es IH]; intros s; simpl.
  - by intros [= <-].
  - destruct (step e s) as [s1|] eqn:Hstep; [|done].
    intros Hrun. rewrite (IH _ Hrun). by eapply step_interval.
Qed.
End LimiterSteps.

Section LimiterProgress.












End LimiterProgress.

Lemma spaced_consecutive (d : Z) (l : list (nat * Z)) :
  spaced d l ->
  forall i a ta b tb,
    l !! i = Some (a, ta) -> l !! S i = Some (b, tb) -> tb - ta >= d.
Proof.
  induction l as [|[x tx] l IH]; intros Hs i a ta b tb Hi Hsi; [done|].
  destruct l as [|[y ty] l]; [done|]. destruct Hs as [Hxy Hs].
  destruct i as [|i]; simpl in Hi, Hsi.
  - injection Hi as <- <-. injection Hsi as <- <-. exact Hxy.
  - by eapply IH.
Qed.


(** The run used below: three tasks added at once, the first settling
    early, then the timers and the remaining completions. *)
Example limiter_run_starts :
  starts <$> run [Add 1000; Add 1000; Add 1000; Settle 0 1005; Fire 0 1040;
                  Fire 1 1040; Settle 1 1041; Fire 2 1080; Settle 2 1080]
               (constructor 25)
  = Some [(0%nat, 1000); (1%nat, 1040); (2%nat, 1080)].
Proof. reflexivity. Qed.

(** A timer callback that runs 1 ms early starts nothing: [dispatch] arms
    another timer for the same time, and the second task starts when that
    one fires. *)
Example limiter_early_timer_rearms :
  (fun s => (starts s, timers s, queue s))
    <$> run [Add 1000; Add 1000; Fire 0 1039] (constructor 25)
  = Some ([(0%nat, 1000)], [(1%nat, 1040)], [1%nat]) /\
  starts <$> run [Add 1000; Add 1000; Fire 0 1039; Fire 1 1040] (constructor 25)
  = Some [(0%nat, 1000); (1%nat, 1040)].
Proof. split; reflexivity. Qed.



(** C7 (as the code has it). Three tasks are added at once and the first
    one settles 5 ms later: its [finally] callback clears [timeoutId]
    while the timer armed by the second [add] is still pending, and
    [dispatch] arms a second timer. Two timers are then pending, both due
    at 1040. *)
Theorem early_settle_arms_a_second_timer :
  exists s,
    run [Add 1000; Add 1000; Add 1000; Settle 0 1005] (constructor 25) = Some s /\
    timers s = [(0%nat, 1040); (1%nat, 1040)] /\
    timeoutId s = Some 1%nat /\
    queue s = [1; 2]%nat.
Proof. eexists. split; [reflexivity|]. repeat split. Qed.

(** * Further properties *)

(** ** The event cache: insertion *)

Section InsertFacts.

Lemma same_key_spec (r r' : Row) : same_key r r' = true <-> key r = key r'.
Proof.
  unfold same_key, key. rewrite !andb_true_iff, !Z.eqb_eq, String.eqb_eq.
  split; [intros [[-> ->] ->]; done | intros [= -> -> ->]; done].
Qed.

Lemma existsb_same_key (r : Row) (t : Table) :
  existsb (same_key r) t = true <-> key r ∈ map key t.
Proof.
  rewrite existsb_exists. split.
  - intros (r' & Hin & Hk). apply same_key_spec in Hk. rewrite Hk.
    apply list_elem_of_fmap_2. by apply list_elem_of_In.
  - intros (r' & Hk & Hin)%list_elem_of_fmap. exists r'.
    split; [by apply list_elem_of_In | by apply same_key_spec].
Qed.

Lemma insert_or_ignore_present (t : Table) (r : Row) :
  key r ∈ map key t -> insert_or_ignore t r = t.
Proof.
  intros Hin. unfold insert_or_ignore.
  apply existsb_same_key in Hin. by rewrite Hin.
Qed.

Lemma insert_or_ignore_fresh (t : Table) (r : Row) :
  key r ∉ map key t -> insert_or_ignore t r = t ++ [r].
Proof.
  intros Hin. unfold insert_or_ignore.
  destruct (existsb (same_key r) t) eqn:He; [|done].
  by apply existsb_same_key in He.
Qed.

Lemma insert_or_ignore_has_key (t : Table) (r : Row) :
  key r ∈ map key (insert_or_ignore t r).
Proof.
  destruct (decide (key r ∈ map key t)) as [Hin | Hin].
  - by rewrite insert_or_ignore_present.
  - rewrite insert_or_ignore_fresh by done. rewrite map_app.
    apply elem_of_app. right. by apply list_elem_of_singleton.
Qed.

Lemma insert_or_ignore_unique (t : Table) (r : Row) :
  unique_keys t -> unique_keys (insert_or_ignore t r).
Proof.
  intros Hu. destruct (decide (key r ∈ map key t)) as [Hin | Hin].
  - by rewrite insert_or_ignore_present.
  - rewrite insert_or_ignore_fresh by done. unfold unique_keys.
    rewrite map_app. apply NoDup_app. split; [done|]. split.
    + intros k Hk ->%list_elem_of_singleton. done.
    + apply NoDup_singleton.
Qed.

Lemma insert_or_ignore_extends (t : Table) (r : Row) :
  exists added, insert_or_ignore t r = t ++ added /\
                (added = [] \/ added = [r]).
Proof.
  unfold insert_or_ignore. destruct (existsb _ _).
  - exists []. split; [by rewrite app_nil_r | by left].
  - exists [r]. split; [done | by right].
Qed.

Lemma bulkInsertEvents_cons (e : EventLog) (events : list EventLog) (t : Table) :
  bulkInsertEvents (e :: events) t =
  bulkInsertEvents events (insert_or_ignore t (row_of_event e)).
Proof. reflexivity. Qed.

Lemma bulkInsertEvents_extends (events : list EventLog) (t : Table) :
  exists added,
    bulkInsertEvents events t = t ++ added /\
    Forall (fun r => exists e, e ∈ events /\ r = row_of_event e) added.
Proof.
  revert t. induction events as [|e events IH]; intros t.
  - exists []. split; [by rewrite app_nil_r | constructor].
  - rewrite bulkInsertEvents_cons.
    destruct (insert_or_ignore_extends t (row_of_event e)) as (a1 & -> & Ha1).
    destruct (IH (t ++ a1)) as (a2 & -> & Ha2).
    exists (a1 ++ a2). split; [by rewrite app_assoc|].
    apply Forall_app. split.
    + destruct Ha1 as [-> | ->]; [constructor|].
      constructor; [|constructor]. exists e. split; [apply list_elem_of_here | done].
    + eapply Forall_impl; [exact Ha2|]. intros r (e' & He' & ->).
      exists e'. split; [by apply list_elem_of_further | done].
Qed.

Lemma bulkInsertEvents_keeps_keys (events : list EventLog) (t : Table) k :
  k ∈ map key t -> k ∈ map key (bulkInsertEvents events t).
Proof.
  intros Hk. destruct (bulkInsertEvents_extends events t) as (added & -> & _).
  rewrite map_app. apply elem_of_app. by left.
Qed.

Lemma bulkInsertEvents_has_keys (events : list EventLog) (t : Table) (e : EventLog) :
  e ∈ events -> key (row_of_event e) ∈ map key (bulkInsertEvents events t).
Proof.
  revert t. induction events as [|e' events IH]; intros t He;
    [by apply elem_of_nil in He|].
  rewrite bulkInsertEvents_cons.
  apply elem_of_cons in He as [-> | He]; [|by apply IH].
  apply bulkInsertEvents_keeps_keys, insert_or_ignore_has_key.
Qed.

Lemma bulkInsertEvents_unique (events : list EventLog) (t : Table) :
  unique_keys t -> unique_keys (bulkInsertEvents events t).
Proof.
  revert t. induction events as [|e events IH]; intros t Hu; [done|].
  rewrite bulkInsertEvents_cons. by apply IH, insert_or_ignore_unique.
Qed.

Lemma bulkInsertEvents_present (events : list EventLog) (t : Table) :
  Forall (fun e => key (row_of_event e) ∈ map key t) events ->
  bulkInsertEvents events t = t.
Proof.
  induction 1 as [|e events He _ IH]; [done|].
  rewrite bulkInsertEvents_cons. by rewrite insert_or_ignore_present.
Qed.

Lemma bulkInsertEvents_fresh (events : list EventLog) (t : Table) :
  NoDup (map key t ++ map (fun e => key (row_of_event e)) events) ->
  bulkInsertEvents events t = t ++ map row_of_event events.
Proof.
  revert t. induction events as [|e events IH]; intros t Hnd; simpl.
  - by rewrite app_nil_r.
  - fold (bulkInsertEvents events (insert_or_ignore t (row_of_event e))).
    simpl in Hnd. apply NoDup_app in Hnd as (Ht & Hdisj & Hev).
    apply NoDup_cons in Hev as [He Hev].
    rewrite insert_or_ignore_fresh.
    + rewrite IH; [by rewrite <- app_assoc|].
      rewrite map_app. simpl. rewrite <- app_assoc. simpl.
      apply NoDup_app. split; [done|]. split.
      * intros k Hk. specialize (Hdisj k Hk).
        rewrite not_elem_of_cons in Hdisj |- *. done.
      * by apply NoDup_cons.
    + intros Hin. apply (Hdisj _ Hin). apply list_elem_of_here.
Qed.
End InsertFacts.

(** X1. The UNIQUE(blockNumber, logIndex, transactionHash) constraint is
    kept by every insertion: a table without two rows of the same key has
    none after [bulkInsertEvents] or [insertEvent] either, whatever the
    batch holds (repeated events, events already stored). *)
Theorem inserts_keep_keys_unique (t : Table) :
  unique_keys t ->
  (forall events, unique_keys (bulkInsertEvents events t)) /\
  (forall event, unique_keys (insertEvent event t)).
Proof.
  intros Hu. split.
  - intros events. by apply bulkInsertEvents_unique.
  - intros event. by apply insert_or_ignore_unique.
Qed.

Lemma inserts_keep_keys_unique_witness :
  unique_keys
    (bulkInsertEvents
       [mkEventLog 7 0 "0xaa" "0x1" "0x2" 5; mkEventLog 7 0 "0xaa" "0x3" "0x4" 6]
       [mkRow 7 1 "0xaa" "0x1" "0x2" "5"]).
Proof.
  apply (inserts_keep_keys_unique [mkRow 7 1 "0xaa" "0x1" "0x2" "5"]).
  unfold unique_keys. simpl. apply NoDup_singleton.
Defined.

(** X2. [bulkInsertEvents] only appends: the rows stored before are still
    there, unchanged and in the same order, followed by rows written for
    events of the batch; and afterwards every event of the batch has a row
    with its key in the table. *)
Theorem bulkInsertEvents_appends_batch_rows (events : list EventLog) (t : Table) :
  (exists added,
      bulkInsertEvents events t = t ++ added /\
      Forall (fun r => exists e, e ∈ events /\ r = row_of_event e) added) /\
  (forall e, e ∈ events ->
             key (row_of_event e) ∈ map key (bulkInsertEvents events t)).
Proof.
  split; [apply bulkInsertEvents_extends|].
  intros e. apply bulkInsertEvents_has_keys.
Qed.

(** X3. Inserting events whose keys are all stored already changes
    nothing, even when their other columns differ from the stored rows
    (INSERT OR IGNORE); in particular inserting the same batch a second
    time is a no-op. *)
Theorem bulkInsertEvents_is_idempotent (events : list EventLog) (t : Table) :
  (Forall (fun e => key (row_of_event e) ∈ map key t) events ->
   bulkInsertEvents events t = t) /\
  bulkInsertEvents events (bulkInsertEvents events t) = bulkInsertEvents events t.
Proof.
  split; [apply bulkInsertEvents_present|].
  apply bulkInsertEvents_present, Forall_forall.
  intros e. apply bulkInsertEvents_has_keys.
Qed.

(** ** The event cache: reading back *)

Section ReadFacts.

Lemma format_row_printed (r : Row) :
  (exists n, tokenId r = toString n) -> format_row r = Some (decode_row r).
Proof.
  intros [n Hn]. unfold format_row, decode_row.
  rewrite Hn, BigInt_toString. done.
Qed.

Lemma mapM_format_row_printed (rows : list Row) :
  printed rows -> mapM format_row rows = Some (decode_row <$> rows).
Proof.
  intros Hp. apply mapM_Some. induction Hp as [|r rows Hr _ IH]; [constructor|].
  constructor; [by apply format_row_printed | done].
Qed.

Lemma select_range_printed fromBlock toBlock (t : Table) :
  printed t -> printed (select_range fromBlock toBlock t).
Proof.
  intros Hp. apply Forall_forall. intros r [Hr _]%select_range_elem.
  unfold printed in Hp. rewrite Forall_forall in Hp. by apply Hp.
Qed.

Lemma getEventsByBlockRange_decodes fromBlock toBlock (t : Table) :
  printed t ->
  getEventsByBlockRange fromBlock toBlock t
  = Some (decode_row <$> select_range fromBlock toBlock t).
Proof.
  intros Hp. unfold getEventsByBlockRange.
  by apply mapM_format_row_printed, select_range_printed.
Qed.

Lemma decode_row_of_event (e : EventLog) :
  decode_row (row_of_event e) = cached_of_event e.
Proof.
  unfold decode_row, row_of_event, cached_of_event. simpl.
  by rewrite BigInt_toString.
Qed.

Lemma decode_row_of_cached (e : CachedEvent) :
  decode_row (row_of_cached e) = e.
Proof.
  destruct e as [b l h [f t n]]. unfold decode_row, row_of_cached. simpl.
  by rewrite BigInt_toString.
Qed.

Lemma row_of_event_printed (events : list EventLog) :
  printed (map row_of_event events).
Proof.
  apply Forall_forall. intros r (e & -> & _)%list_elem_of_fmap.
  by exists (ev_args2 e).
Qed.

Lemma written_printed (batches : list (list EventLog)) : printed (written batches).
Proof.
  unfold written.
  assert (H : forall t, printed t ->
            printed (fold_left (fun t events => bulkInsertEvents events t) batches t)).
  { induction batches as [|b batches IH]; intros t Ht; simpl; [done|].
    by apply IH, bulkInsertEvents_printed. }
  apply H. constructor.
Qed.

Lemma filter_map_rows (P : Row -> Prop) `{forall r, Decision (P r)}
    (events : list EventLog) :
  filter P (map row_of_event events)
  = map row_of_event (filter (fun e => P (row_of_event e)) events).
Proof.
  induction events as [|e events IH]; [done|]. simpl.
  rewrite !filter_cons. destruct (decide (P (row_of_event e))); simpl;
    by rewrite IH.
Qed.

Lemma max_blockNumber_spec (t : Table) (m : Z) :
  max_blockNumber t = Some m -> highest_stored t m.
Proof.
  destruct t as [|r0 t]; [done|]. simpl. intros [= <-].
  pose proof (fold_max_ge (map blockNumber t) (blockNumber r0)) as [Hge Hges].
  split.
  - destruct (fold_max_in (map blockNumber t) (blockNumber r0)) as [Heq | Hin].
    + exists r0. split; [apply list_elem_of_here | done].
    + apply list_elem_of_fmap in Hin as (r & Hr & Hin).
      exists r. split; [by apply list_elem_of_further | done].
  - constructor; [done|]. apply Forall_forall. intros r Hr.
    rewrite Forall_forall in Hges. apply Hges. by apply list_elem_of_fmap_2.
Qed.

Lemma GetHighestCachedBlock_ge (t : Table) (r : Row) :
  r ∈ t -> 0 < blockNumber r -> blockNumber r <= GetHighestCachedBlock t.
Proof.
  intros Hr Hpos. unfold GetHighestCachedBlock.
  destruct (max_blockNumber t) as [m|] eqn:Hm.
  - apply max_blockNumber_spec in Hm as [_ Hall].
    rewrite Forall_forall in Hall. specialize (Hall r Hr). simpl.
    destruct (Z.eqb_spec m 0); lia.
  - destruct t; [by apply elem_of_nil in Hr | done].
Qed.

Lemma GetHighestCachedBlock_cases (t : Table) :
  GetHighestCachedBlock t = -1 \/
  exists r, r ∈ t /\ blockNumber r = GetHighestCachedBlock t /\
            blockNumber r <> 0.
Proof.
  unfold GetHighestCachedBlock.
  destruct (max_blockNumber t) as [m|] eqn:Hm; [|by left]. simpl.
  destruct (Z.eqb_spec m 0); [by left|]. right.
  apply max_blockNumber_spec in Hm as [(r & Hr & Hm) _]. exists r. by subst m.
Qed.
End ReadFacts.

(** X4. What [bulkInsertEvents] writes, [getEventsByBlockRange] reads
    back: for a batch without repeated keys inserted into an empty table,
    the events returned for a range are the events of the batch whose
    block number lies in the range, with the same block number, log
    index, hash, addresses and token id (the decimal text of the token id
    converts back to the same BigInt), in ascending (block number, log
    index) order. *)
Theorem written_batch_is_read_back
    (events : list EventLog) (fromBlock toBlock : Z) :
  NoDup (map (fun e => key (row_of_event e)) events) ->
  exists read,
    getEventsByBlockRange fromBlock toBlock (bulkInsertEvents events []) = Some read /\
    read ≡ₚ map cached_of_event
              (filter (fun e => fromBlock <= ev_blockNumber e <= toBlock) events) /\
    StronglySorted chain_order read.
Proof.
  intros Hnd. rewrite bulkInsertEvents_fresh by done. simpl.
  rewrite getEventsByBlockRange_decodes by apply row_of_event_printed.
  eexists. split; [reflexivity|]. split.
  - rewrite select_range_perm. rewrite filter_map_rows.
    change (map row_of_event ?l) with (row_of_event <$> l).
    rewrite <- list_fmap_compose.
    change (map cached_of_event ?l) with (cached_of_event <$> l).
    erewrite list_fmap_ext; [reflexivity|].
    intros i e _. simpl. apply decode_row_of_event.
  - eapply format_row_sorted; [|apply select_range_sorted].
    apply mapM_Some. apply mapM_format_row_printed, select_range_printed,
      row_of_event_printed.
Qed.

Lemma written_batch_is_read_back_witness :
  exists read,
    getEventsByBlockRange 10 20
      (bulkInsertEvents
         [mkEventLog 15 1 "0xb" "0x1" "0x2" 8; mkEventLog 12 0 "0xa" "0x0" "0x1" 8;
          mkEventLog 30 0 "0xc" "0x2" "0x3" 8] [])
    = Some read /\
    read ≡ₚ [cached_of_event (mkEventLog 15 1 "0xb" "0x1" "0x2" 8);
             cached_of_event (mkEventLog 12 0 "0xa" "0x0" "0x1" 8)].
Proof.
  destruct (written_batch_is_read_back
              [mkEventLog 15 1 "0xb" "0x1" "0x2" 8; mkEventLog 12 0 "0xa" "0x0" "0x1" 8;
               mkEventLog 30 0 "0xc" "0x2" "0x3" 8] 10 20)
    as (read & Hread & Hperm & _).
  { apply (bool_decide_unpack _). vm_compute. exact I. }
  exists read. split; [exact Hread|]. exact Hperm.
Defined.

(** X5. [insertEvent] and [getEventsByBlockRange] are inverse on events:
    the row written for an event formats back to that event; an event
    inserted into an empty table is the one event read back at its block;
    and inserting an event that a range query returned leaves the table
    as it is. *)
Theorem insertEvent_round_trip (event : CachedEvent) :
  format_row (row_of_cached event) = Some event /\
  getEventsByBlockRange (ce_blockNumber event) (ce_blockNumber event)
    (insertEvent event []) = Some [event] /\
  (forall t fromBlock toBlock read,
      getEventsByBlockRange fromBlock toBlock t = Some read ->
      event ∈ read -> insertEvent event t = t).
Proof.
  assert (Hfmt : format_row (row_of_cached event) = Some event).
  { rewrite format_row_printed by (by eexists). by rewrite decode_row_of_cached. }
  split; [exact Hfmt|]. split.
  - change (insertEvent event []) with [row_of_cached event].
    unfold getEventsByBlockRange, select_range.
    assert (Hsel : filter (in_range (ce_blockNumber event) (ce_blockNumber event))
                     [row_of_cached event] = [row_of_cached event]).
    { apply filter_all. constructor; [|constructor]. unfold in_range. simpl. lia. }
    unfold Table. rewrite Hsel.
    change (merge_sort order_by [row_of_cached event]) with [row_of_cached event].
    apply mapM_Some. by repeat constructor.
  - intros t fromBlock toBlock read Hread Hin.
    unfold getEventsByBlockRange in Hread. apply mapM_Some in Hread.
    apply list_elem_of_lookup in Hin as [i Hi].
    destruct (Forall2_lookup_r _ _ _ _ _ Hread Hi) as (row & Hrow & Hfr).
    apply list_elem_of_lookup_2, select_range_elem in Hrow as [Hrow _].
    unfold insertEvent. apply insert_or_ignore_present.
    assert (Hk : key (row_of_cached event) = key row).
    { unfold format_row in Hfr. destruct (BigInt (tokenId row)); [|done].
      simpl in Hfr. injection Hfr as <-. done. }
    rewrite Hk. by apply list_elem_of_fmap_2.
Qed.

(** X6. On a store that holds only what [bulkInsertEvents] wrote, in any
    number of batches, [getEventsByBlockRange] never fails on a token id:
    it returns one event for each stored row in the range, and none for a
    range whose upper end is below its lower end. *)
Theorem getEventsByBlockRange_reads_written_store
    (batches : list (list EventLog)) (fromBlock toBlock : Z) :
  exists read,
    getEventsByBlockRange fromBlock toBlock (written batches) = Some read /\
    length read = length (filter (in_range fromBlock toBlock) (written batches)) /\
    (toBlock < fromBlock -> read = []).
Proof.
  rewrite getEventsByBlockRange_decodes by apply written_printed.
  eexists. split; [reflexivity|]. split.
  - by rewrite length_fmap, select_range_perm.
  - intros Hinv.
    assert (Hnil : filter (in_range fromBlock toBlock) (written batches) = []).
    { apply elem_of_nil_inv. intros r [Hr _]%list_elem_of_filter.
      unfold in_range in Hr. lia. }
    unfold select_range. by rewrite Hnil.
Qed.

(** X7. The resume cursor follows the insertions: when the stored block
    numbers and those of the batch are not negative,
    [GetHighestCachedBlock] is not lowered by [bulkInsertEvents], and
    afterwards it is at least the block number of every event of the batch
    above block 0. *)
Theorem GetHighestCachedBlock_follows_inserts (events : list EventLog) (t : Table) :
  Forall (fun r => 0 <= blockNumber r) t ->
  Forall (fun e => 0 <= ev_blockNumber e) events ->
  GetHighestCachedBlock t <= GetHighestCachedBlock (bulkInsertEvents events t) /\
  (forall e, e ∈ events -> 0 < ev_blockNumber e ->
             ev_blockNumber e <= GetHighestCachedBlock (bulkInsertEvents events t)).
Proof.
  intros Ht Hev.
  destruct (bulkInsertEvents_extends events t) as (added & Heq & Hadded).
  assert (Hnonneg : Forall (fun r => 0 <= blockNumber r) (bulkInsertEvents events t)).
  { rewrite Heq. apply Forall_app. split; [done|].
    eapply Forall_impl; [exact Hadded|]. intros r (e & He & ->). simpl.
    rewrite Forall_forall in Hev. by apply Hev. }
  split.
  - destruct (GetHighestCachedBlock_cases t) as [-> | (r & Hr & Hbn & Hne)].
    + destruct (GetHighestCachedBlock_cases (bulkInsertEvents events t))
        as [-> | (r & Hr & <- & _)]; [done|].
      rewrite Forall_forall in Hnonneg. specialize (Hnonneg r Hr). lia.
    + rewrite <- Hbn. apply GetHighestCachedBlock_ge.
      * rewrite Heq. apply elem_of_app. by left.
      * rewrite Forall_forall in Ht. specialize (Ht r Hr). lia.
  - intros e He Hpos.
    pose proof (bulkInsertEvents_has_keys events t e He) as Hk.
    apply list_elem_of_fmap in Hk as (r & Hk & Hr).
    assert (Hbn : blockNumber r = ev_blockNumber e).
    { unfold key in Hk. simpl in Hk. by injection Hk as <- _ _. }
    rewrite <- Hbn. apply GetHighestCachedBlock_ge; [done | lia].
Qed.

Lemma GetHighestCachedBlock_follows_inserts_witness :
  GetHighestCachedBlock [mkRow 100 0 "0xa" "0x0" "0x1" "1"]
  <= GetHighestCachedBlock
       (bulkInsertEvents [mkEventLog 150 0 "0xb" "0x1" "0x2" 1]
          [mkRow 100 0 "0xa" "0x0" "0x1" "1"]).
Proof.
  apply (GetHighestCachedBlock_follows_inserts
           [mkEventLog 150 0 "0xb" "0x1" "0x2" 1]
           [mkRow 100 0 "0xa" "0x0" "0x1" "1"]).
  - constructor; [simpl; lia | constructor].
  - constructor; [simpl; lia | constructor].
Defined.

(** ** The checkpoint search *)

Section SearchMore.
Variable getBlock : Z -> option Block.
Variable targetTimestamp : Z.

Lemma search_loop_sound (fuel : nat) (startBlock endBlock : Z) (b : Block) :
  search_loop fuel getBlock targetTimestamp startBlock endBlock = Some (Some b) ->
  Z.abs (timestamp b - targetTimestamp) <= tolerance /\
  exists h, startBlock <= h <= endBlock /\ getBlock h = Some b.
Proof.
  revert startBlock endBlock.
  induction fuel as [|fuel IH]; intros startBlock endBlock; simpl;
    destruct (Z.leb_spec startBlock endBlock) as [Hle | Hgt]; try done.
  assert (Hmid : startBlock <= (startBlock + endBlock) / 2 <= endBlock)
    by (Z.div_mod_to_equations; lia).
  destruct (getBlock _) as [block|] eqn:Hb; [|done].
  destruct (Z.leb_spec (Z.abs (timestamp block - targetTimestamp)) tolerance).
  - intros [= <-]. split; [done|]. by eexists.
  - destruct (timestamp block <? targetTimestamp); intros Hs;
      apply IH in Hs as (Htol & h & Hh & Hgb); (split; [done|]);
      exists h; (split; [lia | done]).
Qed.

Lemma search_loop_more_fuel (fuel fuel' : nat) (startBlock endBlock : Z) r :
  search_loop fuel getBlock targetTimestamp startBlock endBlock = Some r ->
  (fuel <= fuel')%nat ->
  search_loop fuel' getBlock targetTimestamp startBlock endBlock = Some r.
Proof.
  revert fuel' startBlock endBlock.
  induction fuel as [|fuel IH]; intros fuel' startBlock endBlock; simpl.
  - destruct (startBlock <=? endBlock) eqn:Hle; [done|].
    intros [= <-] _. destruct fuel'; simpl; by rewrite Hle.
  - intros Hs Hf. destruct fuel' as [|fuel']; [lia|]. simpl.
    destruct (startBlock <=? endBlock); [|done].
    destruct (getBlock _) as [block|]; [|done].
    destruct (Z.abs _ <=? tolerance); [done|].
    destruct (timestamp block <? targetTimestamp); apply IH; (done || lia).
Qed.

(** Every iteration at least halves the interval. *)
Lemma search_loop_halves (fuel : nat) (startBlock endBlock : Z) :
  endBlock + 1 - startBlock < 2 ^ Z.of_nat fuel ->
  is_Some (search_loop fuel getBlock targetTimestamp startBlock endBlock).
Proof.
  revert startBlock endBlock.
  induction fuel as [|fuel IH]; intros startBlock endBlock Hsize; simpl;
    destruct (Z.leb_spec startBlock endBlock) as [Hle | Hgt];
    try (by eexists).
  - simpl in Hsize. lia.
  - rewrite Nat2Z.inj_succ, Z.pow_succ_r in Hsize by lia.
    destruct (getBlock _) as [block|]; [|by eexists].
    destruct (Z.abs _ <=? tolerance); [by eexists|].
    destruct (timestamp block <? targetTimestamp); apply IH;
      Z.div_mod_to_equations; lia.
Qed.

Lemma search_loop_complete (fuel : nat) (startBlock endBlock : Z) :
  (forall h, startBlock <= h <= endBlock -> is_Some (getBlock h)) ->
  (forall h h' b b',
      startBlock <= h <= h' -> h' <= endBlock ->
      getBlock h = Some b -> getBlock h' = Some b' ->
      timestamp b <= timestamp b') ->
  (exists h b, startBlock <= h <= endBlock /\ getBlock h = Some b /\
               Z.abs (timestamp b - targetTimestamp) <= tolerance) ->
  endBlock + 1 - startBlock <= Z.of_nat fuel ->
  exists b, search_loop fuel getBlock targetTimestamp startBlock endBlock
            = Some (Some b).
Proof.
  revert startBlock endBlock.
  induction fuel as [|fuel IH];
    intros startBlock endBlock Hall Hmono (h & b & Hh & Hb & Htol) Hfuel; simpl;
    destruct (Z.leb_spec startBlock endBlock) as [Hle | Hgt]; try lia.
  assert (Hmid : startBlock <= (startBlock + endBlock) / 2 <= endBlock)
    by (Z.div_mod_to_equations; lia).
  destruct (getBlock ((startBlock + endBlock) / 2)) as [block|] eqn:Hm;
    [|destruct (Hall _ Hmid) as [x Hx]; congruence].
  destruct (Z.leb_spec (Z.abs (timestamp block - targetTimestamp)) tolerance)
    as [|Hfar]; [by eexists|].
  destruct (Z.ltb_spec (timestamp block) targetTimestamp) as [Hlt | Hge].
  - assert (Hup : (startBlock + endBlock) / 2 < h).
    { destruct (Z.lt_ge_cases ((startBlock + endBlock) / 2) h) as [|Hc]; [done|].
      assert (H1 : startBlock <= h <= (startBlock + endBlock) / 2) by lia.
      pose proof (Hmono h _ b block H1 ltac:(lia) Hb Hm).
      unfold tolerance in *. lia. }
    apply IH; [| |exists h, b; repeat split; (done || lia) | lia].
    + intros h' Hh'. apply Hall. lia.
    + intros h1 h2 b1 b2 H1 H2. apply Hmono; lia.
  - assert (Hlow : h < (startBlock + endBlock) / 2).
    { destruct (Z.lt_ge_cases h ((startBlock + endBlock) / 2)) as [|Hc]; [done|].
      assert (H1 : startBlock <= (startBlock + endBlock) / 2 <= h) by lia.
      pose proof (Hmono _ h block b H1 ltac:(lia) Hm Hb).
      unfold tolerance in *. lia. }
    apply IH; [| |exists h, b; repeat split; (done || lia) | lia].
    + intros h' Hh'. apply Hall. lia.
    + intros h1 h2 b1 b2 H1 H2. apply Hmono; lia.
Qed.
End SearchMore.

(** X8. A block returned by [findBlockByTimestamp] is one that [getBlock]
    delivered for a height between 0 and the current block number, and its
    timestamp is within 300 seconds of the target. *)
Theorem findBlockByTimestamp_returns_block_within_tolerance
    (getBlockNumber : Z) (getBlock : Z -> option Block)
    (targetTimestamp : Z) (block : Block) :
  findBlockByTimestamp getBlockNumber getBlock targetTimestamp = Some block ->
  Z.abs (timestamp block - targetTimestamp) <= 300 /\
  exists h, 0 <= h <= getBlockNumber /\ getBlock h = Some block.
Proof.
  unfold findBlockByTimestamp. intros Hfind.
  destruct (search_loop _ _ _ _ _) as [[b|]|] eqn:Hs; simpl in Hfind; try done.
  injection Hfind as ->. by apply search_loop_sound in Hs.
Qed.

Lemma findBlockByTimestamp_returns_block_within_tolerance_witness :
  Z.abs (timestamp (mkBlock 5 5000) - 5100) <= 300.
Proof.
  apply (findBlockByTimestamp_returns_block_within_tolerance 10
           (fun n => Some (mkBlock n (n * 1000))) 5100 (mkBlock 5 5000)).
  reflexivity.
Defined.

(** X9. When every height up to the current block number has a block,
    timestamps do not decrease with the height, and some block lies
    within 300 seconds of the target, [findBlockByTimestamp] finds a
    block. *)
Theorem findBlockByTimestamp_finds_a_block
    (getBlockNumber : Z) (getBlock : Z -> option Block) (targetTimestamp : Z) :
  (forall h, 0 <= h <= getBlockNumber -> is_Some (getBlock h)) ->
  (forall h h' b b',
      0 <= h <= h' -> h' <= getBlockNumber ->
      getBlock h = Some b -> getBlock h' = Some b' ->
      timestamp b <= timestamp b') ->
  (exists h b, 0 <= h <= getBlockNumber /\ getBlock h = Some b /\
               Z.abs (timestamp b - targetTimestamp) <= 300) ->
  exists block,
    findBlockByTimestamp getBlockNumber getBlock targetTimestamp = Some block.
Proof.
  intros Hall Hmono Hex. unfold findBlockByTimestamp.
  destruct (search_loop_complete getBlock targetTimestamp
              (Z.to_nat (getBlockNumber + 1)) 0 getBlockNumber Hall Hmono Hex)
    as [b Hb]; [lia|].
  rewrite Hb. by exists b.
Qed.

Lemma findBlockByTimestamp_finds_a_block_witness :
  exists block,
    findBlockByTimestamp 10 (fun n => Some (mkBlock n (n * 1000))) 5100 = Some block.
Proof.
  apply (findBlockByTimestamp_finds_a_block 10
           (fun n => Some (mkBlock n (n * 1000))) 5100).
  - intros h _. by eexists.
  - intros h h' b b' Hh Hh' [= <-] [= <-]. simpl. lia.
  - exists 5, (mkBlock 5 5000). repeat split; simpl; lia.
Defined.

(** X10. The search is logarithmic: as many iterations as the binary
    length of the number of heights, each fetching one block, are enough
    for it to end with its result. *)
Theorem findBlockByTimestamp_fetches_logarithmically
    (getBlockNumber : Z) (getBlock : Z -> option Block)
    (targetTimestamp : Z) (fuel : nat) :
  getBlockNumber + 1 < 2 ^ Z.of_nat fuel ->
  search_loop fuel getBlock targetTimestamp 0 getBlockNumber
  = Some (findBlockByTimestamp getBlockNumber getBlock targetTimestamp).
Proof.
  intros Hsize. unfold findBlockByTimestamp.
  destruct (search_loop_halves getBlock targetTimestamp fuel 0 getBlockNumber)
    as [r Hr]; [lia|].
  destruct (search_loop_enough_fuel getBlock targetTimestamp
              (Z.to_nat (getBlockNumber + 1)) 0 getBlockNumber) as [r' Hr']; [lia|].
  rewrite Hr, Hr'. simpl. f_equal. f_equal.
  pose proof (search_loop_more_fuel getBlock targetTimestamp _
                (fuel + Z.to_nat (getBlockNumber + 1)) _ _ _ Hr ltac:(lia)) as H1.
  pose proof (search_loop_more_fuel getBlock targetTimestamp _
                (fuel + Z.to_nat (getBlockNumber + 1)) _ _ _ Hr' ltac:(lia)) as H2.
  congruence.
Qed.

Lemma findBlockByTimestamp_fetches_logarithmically_witness :
  search_loop 10 (fun n => Some (mkBlock n (n * 12))) 6000 0 1000
  = Some (findBlockByTimestamp 1000 (fun n => Some (mkBlock n (n * 12))) 6000).
Proof.
  apply (findBlockByTimestamp_fetches_logarithmically 1000
           (fun n => Some (mkBlock n (n * 12))) 6000 10).
  vm_compute. reflexivity.
Defined.

(** ** The ingestion sweep: coverage, windows, cache, termination *)

Section SweepCoverage.
Variable queryFilter : nat -> Z -> Z -> query_result.
Variable highest maxBlock resume : Z.
Hypothesis highest_below : highest <= maxBlock.
Hypothesis highest_resume : highest <= resume.

Lemma covering_body (s : Sweep) :
  covering queryFilter maxBlock resume s ->
  covering queryFilter maxBlock resume
    (sweep_body queryFilter highest maxBlock s).
Proof.
  intros (Hcur & Hcov & Hst). unfold covering, sweep_body.
  destruct (Z.gtb_spec highest (currentBlock s)) as [Hskip | Hno].
  - split; [simpl; lia|]. split; [|done].
    intros h Hh. simpl in Hh. lia.
  - set (toBlockChunk := Z.min (currentBlock s + currentChunkSize s - 1) maxBlock).
    destruct (queryFilter (length (windows s)) (currentBlock s) toBlockChunk)
      as [events | message] eqn:Hq.
    + split; [simpl; lia|]. split.
      * intros h Hh. simpl in Hh.
        destruct (Z.lt_ge_cases h (currentBlock s)) as [Hold | Hnew].
        -- destruct (Hcov h) as (i & f & t & evs & Hi & Hf & Hok); [lia|].
           exists i, f, t, evs. simpl. split; [by apply lookup_app_l_Some | done].
        -- exists (length (windows s)), (currentBlock s), toBlockChunk, events.
           simpl. split; [|split; [lia | done]].
           apply lookup_snoc_Some. by right.
      * intros i f t evs e Hi Hok He. simpl in Hi |- *.
        apply lookup_snoc_Some in Hi as [[_ Hi] | [-> [= <- <-]]].
        -- apply bulkInsertEvents_keeps_keys. by eapply Hst.
        -- rewrite Hq in Hok. injection Hok as <-.
           by apply bulkInsertEvents_has_keys.
    + split; [simpl; lia|]. split.
      * intros h Hh. simpl in Hh.
        destruct (Hcov h Hh) as (i & f & t & evs & Hi & Hf & Hok).
        exists i, f, t, evs. simpl. split; [by apply lookup_app_l_Some | done].
      * intros i f t evs e Hi Hok He. simpl in Hi |- *.
        apply lookup_snoc_Some in Hi as [[_ Hi] | [-> [= <- <-]]].
        -- by eapply Hst.
        -- rewrite Hq in Hok. discriminate Hok.
Qed.

Lemma covering_loop (fuel : nat) (s s' : Sweep) :
  covering queryFilter maxBlock resume s ->
  sweep_loop queryFilter highest maxBlock fuel s = Finished s' ->
  covering queryFilter maxBlock resume s' /\ currentBlock s' = maxBlock + 1.
Proof.
  revert s. induction fuel as [|fuel IH]; intros s Hs; simpl;
    destruct (Z.leb_spec (currentBlock s) maxBlock) as [Hle | Hgt]; try done.
  - intros [= <-]. split; [done|]. destruct Hs as [Hcur _]. lia.
  - intros Hrun. eapply IH; [|exact Hrun]. by apply covering_body.
  - intros [= <-]. split; [done|]. destruct Hs as [Hcur _]. lia.
Qed.
End SweepCoverage.

Section SweepWindows.
Variable queryFilter : nat -> Z -> Z -> query_result.
Variable highest maxBlock genesis : Z.

Lemma well_windowed_body (s : Sweep) :
  well_windowed genesis maxBlock s -> currentBlock s <= maxBlock ->
  well_windowed genesis maxBlock (sweep_body queryFilter highest maxBlock s).
Proof.
  intros (Hc & Hg & Hw) Hle. unfold well_windowed.
  split; [by apply sweep_body_bounds|].
  unfold sweep_body.
  destruct (Z.gtb_spec highest (currentBlock s)) as [Hskip | Hno];
    [split; [simpl; lia | done]|].
  assert (Hnew : clipped genesis maxBlock
            (currentBlock s,
             Z.min (currentBlock s + currentChunkSize s - 1) maxBlock)).
  { unfold clipped, chunk_in_bounds, MIN_CHUNK_SIZE, MAX_CHUNK_SIZE in *.
    simpl. lia. }
  unfold chunk_in_bounds, MIN_CHUNK_SIZE in Hc.
  destruct (queryFilter _ _ _); simpl;
    (split; [lia | apply Forall_app; split; [done | by constructor]]).
Qed.

Lemma well_windowed_loop (fuel : nat) (s : Sweep) :
  well_windowed genesis maxBlock s ->
  well_windowed genesis maxBlock
    (loop_state (sweep_loop queryFilter highest maxBlock fuel s)).
Proof.
  revert s. induction fuel as [|fuel IH]; intros s Hs; simpl;
    destruct (Z.leb_spec (currentBlock s) maxBlock); simpl; try done.
  by apply IH, well_windowed_body.
Qed.

Lemma sweep_body_extends (s : Sweep) :
  exists added, cache (sweep_body queryFilter highest maxBlock s) = cache s ++ added.
Proof.
  unfold sweep_body. destruct (highest >? currentBlock s);
    [exists []; by rewrite app_nil_r|].
  destruct (queryFilter _ _ _) as [events|]; simpl;
    [|exists []; by rewrite app_nil_r].
  destruct (bulkInsertEvents_extends events (cache s)) as (added & -> & _).
  by exists added.
Qed.

Lemma sweep_body_unique (s : Sweep) :
  unique_keys (cache s) ->
  unique_keys (cache (sweep_body queryFilter highest maxBlock s)).
Proof.
  intros Hu. unfold sweep_body. destruct (highest >? currentBlock s); [done|].
  destruct (queryFilter _ _ _) as [events|]; simpl; [|done].
  by apply bulkInsertEvents_unique.
Qed.

Lemma sweep_loop_extends (fuel : nat) (s : Sweep) :
  (exists added,
      cache (loop_state (sweep_loop queryFilter highest maxBlock fuel s))
      = cache s ++ added) /\
  (unique_keys (cache s) ->
   unique_keys (cache (loop_state (sweep_loop queryFilter highest maxBlock fuel s)))).
Proof.
  revert s. induction fuel as [|fuel IH]; intros s; simpl;
    destruct (currentBlock s <=? maxBlock); simpl;
    try (split; [exists []; by rewrite app_nil_r | done]).
  destruct (IH (sweep_body queryFilter highest maxBlock s)) as [[a2 Ha2] Hu2].
  destruct (sweep_body_extends s) as [a1 Ha1]. split.
  - exists (a1 ++ a2). by rewrite Ha2, Ha1, app_assoc.
  - intros Hu. by apply Hu2, sweep_body_unique.
Qed.

(** With a remote source that answers every window, each iteration
    after the skip moves the cursor by at least the smallest chunk. *)
Lemma sweep_loop_finishes (fuel : nat) (s : Sweep) :
  (forall k f t, exists events, queryFilter k f t = QueryOk events) ->
  chunk_in_bounds (currentChunkSize s) ->
  highest <= currentBlock s ->
  maxBlock + 1 - currentBlock s <= 100 * Z.of_nat fuel ->
  exists s', sweep_loop queryFilter highest maxBlock fuel s = Finished s'.
Proof.
  intros Hok. revert s.
  induction fuel as [|fuel IH]; intros s Hc Hh Hrem; simpl;
    destruct (Z.leb_spec (currentBlock s) maxBlock) as [Hle | Hgt];
    try (by eexists); [lia|].
  apply IH.
  - by apply sweep_body_bounds.
  - unfold sweep_body. destruct (Z.gtb_spec highest (currentBlock s)); [lia|].
    destruct (Hok (length (windows s)) (currentBlock s)
                (Z.min (currentBlock s + currentChunkSize s - 1) maxBlock))
      as [events ->]. simpl.
    unfold chunk_in_bounds, MIN_CHUNK_SIZE in Hc. lia.
  - unfold sweep_body. destruct (Z.gtb_spec highest (currentBlock s)); [lia|].
    destruct (Hok (length (windows s)) (currentBlock s)
                (Z.min (currentBlock s + currentChunkSize s - 1) maxBlock))
      as [events ->]. simpl.
    unfold chunk_in_bounds, MIN_CHUNK_SIZE in Hc. lia.
Qed.
End SweepWindows.

(** X11. When a sweep that was not already complete finishes, its cursor
    stands one past the target; every height from the resume point (the
    later of the genesis height and the highest cached height) to the
    target lies in a window whose fetch succeeded; and every event those
    windows returned has a row with its key in the cache. A failed window
    is never skipped. *)
Theorem finished_sweep_covers_every_height
    (genesis chunk : Z) (queryFilter : nat -> Z -> Z -> query_result)
    (target : Z) (db : Table) (fuel : nat) (s : Sweep) :
  GetHighestCachedBlock db < target ->
  genesis <= target ->
  sweep_from genesis chunk queryFilter target db fuel = Finished s ->
  currentBlock s = target + 1 /\
  (forall h, Z.max genesis (GetHighestCachedBlock db) <= h <= target ->
             answered queryFilter s h) /\
  answers_stored queryFilter s.
Proof.
  intros Hh Hg. unfold sweep_from.
  destruct (Z.geb_spec (GetHighestCachedBlock db) target); [lia|].
  intros Hrun.
  assert (H0 : covering queryFilter target
                 (Z.max genesis (GetHighestCachedBlock db))
                 {| currentBlock := genesis; currentChunkSize := chunk;
                    cache := db; windows := [] |}).
  { split; [simpl; lia|]. split.
    - intros h Hrange. simpl in Hrange. lia.
    - intros i f t evs e Hi. simpl in Hi. by rewrite lookup_nil in Hi. }
  destruct (covering_loop queryFilter (GetHighestCachedBlock db) target
              (Z.max genesis (GetHighestCachedBlock db))
              ltac:(lia) ltac:(lia) fuel _ s H0 Hrun)
    as [(_ & Hcov & Hst) Hcur].
  split; [done|]. split; [|done].
  intros h Hrange. apply Hcov. lia.
Qed.

Lemma finished_sweep_covers_every_height_witness :
  answered (fun _ _ _ => QueryOk [])
    (loop_state (sweep_from 100 50 (fun _ _ _ => QueryOk []) 200 [] 4)) 175.
Proof.
  destruct (sweep_from 100 50 (fun _ _ _ => QueryOk []) 200 [] 4) as [s|s] eqn:Hrun;
    [|vm_compute in Hrun; discriminate].
  destruct (finished_sweep_covers_every_height 100 50 (fun _ _ _ => QueryOk [])
              200 [] 4 s) as (_ & Hcov & _);
    [vm_compute; reflexivity | lia | exact Hrun |].
  apply Hcov. vm_compute. split; discriminate.
Defined.

(** The largest chunk is reached: a window can hold exactly 150000
    heights. *)
Example full_size_window_occurs :
  windows (loop_state
    (sweep_from 0 150000 (fun _ _ _ => QueryOk []) 1000000 [] 1))
  = [(0, 149999)].
Proof. reflexivity. Qed.

(** X12. Every window the sweep queries is well formed: it starts at or
    after the genesis height, it is not empty, it does not reach past the
    target, and it holds at most 150000 heights (its two ends are at most
    149999 apart), whatever the remote source answered before. *)
Theorem sweep_windows_are_clipped_to_target
    (genesis chunk : Z) (queryFilter : nat -> Z -> Z -> query_result)
    (target : Z) (db : Table) (fuel : nat) :
  chunk_in_bounds chunk ->
  Forall (clipped genesis target)
    (windows (loop_state (sweep_from genesis chunk queryFilter target db fuel))).
Proof.
  intros Hc. unfold sweep_from.
  destruct (GetHighestCachedBlock db >=? target); [constructor|].
  apply well_windowed_loop. split; [done|]. split; [simpl; lia | constructor].
Qed.

Lemma sweep_windows_are_clipped_to_target_witness :
  Forall (clipped startBlock 12500000)
    (windows (loop_state
       (getTransactionThroughBlock
          (fun k _ _ => match k with
                        | O => QueryError "query returned more than 10000 results"
                        | _ => QueryOk []
                        end)
          12500000 [] 3))).
Proof.
  apply (sweep_windows_are_clipped_to_target startBlock 50000).
  unfold chunk_in_bounds, MIN_CHUNK_SIZE, MAX_CHUNK_SIZE. lia.
Defined.

(** X13. The sweep only adds to the cache: after any number of
    iterations the rows stored before are still there, unchanged and
    first; no two rows share a key if none did before; and when the cache
    already reaches the target nothing is queried and nothing is
    written. *)
Theorem sweep_only_appends_to_cache
    (genesis chunk : Z) (queryFilter : nat -> Z -> Z -> query_result)
    (target : Z) (db : Table) (fuel : nat) :
  (exists added,
      cache (loop_state (sweep_from genesis chunk queryFilter target db fuel))
      = db ++ added) /\
  (unique_keys db ->
   unique_keys
     (cache (loop_state (sweep_from genesis chunk queryFilter target db fuel)))) /\
  (target <= GetHighestCachedBlock db ->
   exists s,
     sweep_from genesis chunk queryFilter target db fuel = Finished s /\
     windows s = [] /\ cache s = db).
Proof.
  unfold sweep_from.
  destruct (Z.geb_spec (GetHighestCachedBlock db) target) as [Hge | Hlt].
  - simpl. split; [exists []; by rewrite app_nil_r|]. split; [done|].
    intros _. by eexists.
  - destruct (sweep_loop_extends queryFilter (GetHighestCachedBlock db) target fuel
                {| currentBlock := genesis; currentChunkSize := chunk;
                   cache := db; windows := [] |}) as [Hext Hun].
    split; [exact Hext|]. split; [exact Hun|]. intros Hle. lia.
Qed.

(** X14. A remote source that answers every window lets the sweep
    finish: one iteration for the skip to the highest cached height and
    one per 100 heights are enough, since the chunk size never falls
    below 100. *)
Theorem sweep_finishes_when_windows_are_answered
    (genesis chunk : Z) (queryFilter : nat -> Z -> Z -> query_result)
    (target : Z) (db : Table) (fuel : nat) :
  chunk_in_bounds chunk ->
  (forall k f t, exists events, queryFilter k f t = QueryOk events) ->
  target + 1 - genesis <= 100 * (Z.of_nat fuel - 1) ->
  exists s, sweep_from genesis chunk queryFilter target db fuel = Finished s.
Proof.
  intros Hc Hok Hfuel. unfold sweep_from.
  destruct (GetHighestCachedBlock db >=? target); [by eexists|].
  destruct fuel as [|fuel].
  - simpl. destruct (Z.leb_spec genesis target); [lia | by eexists].
  - destruct (Z.gtb_spec (GetHighestCachedBlock db) genesis) as [Hskip | Hno].
    + simpl. destruct (Z.leb_spec genesis target); [|by eexists].
      apply sweep_loop_finishes; try done.
      * by apply sweep_body_bounds.
      * unfold sweep_body. simpl.
        destruct (Z.gtb_spec (GetHighestCachedBlock db) genesis); [simpl; lia | lia].
      * unfold sweep_body. simpl.
        destruct (Z.gtb_spec (GetHighestCachedBlock db) genesis); [simpl; lia | lia].
    + apply sweep_loop_finishes; try done; simpl; lia.
Qed.

Lemma sweep_finishes_when_windows_are_answered_witness :
  exists s,
    sweep_from 1000 50000 (fun _ _ _ => QueryOk []) 1500 [] 7 = Finished s.
Proof.
  apply (sweep_finishes_when_windows_are_answered 1000 50000
           (fun _ _ _ => QueryOk []) 1500 [] 7).
  - unfold chunk_in_bounds, MIN_CHUNK_SIZE, MAX_CHUNK_SIZE. lia.
  - intros k f t. by eexists.
  - lia.
Defined.

(** ** The chunk size under a steady remote source *)

Section ChunkDynamics.

Lemma fold_adjust_iter (f : Z -> Z) (as_ : list adjustment) (c : Z) :
  Forall (fun a => forall c, adjust c a = f c) as_ ->
  fold_left adjust as_ c = Nat.iter (length as_) f c.
Proof.
  intros Hall. revert c. induction Hall as [|a l Ha _ IH]; intros c; [done|].
  simpl fold_left. simpl length. rewrite Nat.iter_succ_r, IH. by rewrite Ha.
Qed.

Lemma iter_bounds (f : Z -> Z) (k : nat) (c : Z) :
  (forall c, chunk_in_bounds c -> chunk_in_bounds (f c)) ->
  chunk_in_bounds c -> chunk_in_bounds (Nat.iter k f c).
Proof. intros Hf Hc. induction k as [|k IH]; simpl; auto. Qed.

Lemma iter_mono (f : Z -> Z) (k : nat) (c c' : Z) :
  (forall c, chunk_in_bounds c -> chunk_in_bounds (f c)) ->
  (forall c c', chunk_in_bounds c -> chunk_in_bounds c' -> c <= c' -> f c <= f c') ->
  chunk_in_bounds c -> chunk_in_bounds c' -> c <= c' ->
  Nat.iter k f c <= Nat.iter k f c'.
Proof.
  intros Hb Hm Hc Hc' Hle. induction k as [|k IH]; simpl; [done|].
  apply Hm; [by apply iter_bounds | by apply iter_bounds | done].
Qed.

Lemma iter_fixed (f : Z -> Z) (k : nat) (c : Z) :
  f c = c -> Nat.iter k f c = c.
Proof. intros Hf. induction k as [|k IH]; simpl; [done|]. by rewrite IH. Qed.

Lemma iter_down (f : Z -> Z) (k n : nat) (c : Z) :
  (forall c, chunk_in_bounds c -> chunk_in_bounds (f c)) ->
  (forall c c', chunk_in_bounds c -> chunk_in_bounds c' -> c <= c' -> f c <= f c') ->
  Nat.iter k f MAX_CHUNK_SIZE = MIN_CHUNK_SIZE ->
  f MIN_CHUNK_SIZE = MIN_CHUNK_SIZE ->
  chunk_in_bounds c -> (k <= n)%nat ->
  Nat.iter n f c = MIN_CHUNK_SIZE.
Proof.
  intros Hb Hm Hk Hfix Hc Hn.
  replace n with ((n - k) + k)%nat by lia. rewrite Nat.iter_add.
  assert (Hreach : Nat.iter k f c = MIN_CHUNK_SIZE).
  { pose proof (iter_bounds f k c Hb Hc) as [Hlo _].
    assert (Htop : chunk_in_bounds MAX_CHUNK_SIZE)
      by (unfold chunk_in_bounds, MIN_CHUNK_SIZE, MAX_CHUNK_SIZE; lia).
    pose proof (iter_mono f k c MAX_CHUNK_SIZE Hb Hm Hc Htop) as Hle.
    destruct Hc as [_ Hhi]. specialize (Hle Hhi). lia. }
  rewrite Hreach. by apply iter_fixed.
Qed.

Lemma iter_up (f : Z -> Z) (k n : nat) (c : Z) :
  (forall c, chunk_in_bounds c -> chunk_in_bounds (f c)) ->
  (forall c c', chunk_in_bounds c -> chunk_in_bounds c' -> c <= c' -> f c <= f c') ->
  Nat.iter k f MIN_CHUNK_SIZE = MAX_CHUNK_SIZE ->
  f MAX_CHUNK_SIZE = MAX_CHUNK_SIZE ->
  chunk_in_bounds c -> (k <= n)%nat ->
  Nat.iter n f c = MAX_CHUNK_SIZE.
Proof.
  intros Hb Hm Hk Hfix Hc Hn.
  replace n with ((n - k) + k)%nat by lia. rewrite Nat.iter_add.
  assert (Hreach : Nat.iter k f c = MAX_CHUNK_SIZE).
  { pose proof (iter_bounds f k c Hb Hc) as [_ Hhi].
    assert (Hbot : chunk_in_bounds MIN_CHUNK_SIZE)
      by (unfold chunk_in_bounds, MIN_CHUNK_SIZE, MAX_CHUNK_SIZE; lia).
    pose proof (iter_mono f k MIN_CHUNK_SIZE c Hb Hm Hbot Hc) as Hle.
    destruct Hc as [Hlo _]. specialize (Hle Hlo). lia. }
  rewrite Hreach. by apply iter_fixed.
Qed.

Lemma shrunk_bounds c : chunk_in_bounds c -> chunk_in_bounds (shrunk c).
Proof.
  unfold chunk_in_bounds, shrunk, MIN_CHUNK_SIZE, MAX_CHUNK_SIZE.
  intros. Z.div_mod_to_equations. lia.
Qed.

Lemma halved_bounds c : chunk_in_bounds c -> chunk_in_bounds (halved c).
Proof.
  unfold chunk_in_bounds, halved, MIN_CHUNK_SIZE, MAX_CHUNK_SIZE.
  intros. Z.div_mod_to_equations. lia.
Qed.

Lemma grown_bounds c : chunk_in_bounds c -> chunk_in_bounds (grown c).
Proof.
  unfold chunk_in_bounds, grown, MIN_CHUNK_SIZE, MAX_CHUNK_SIZE.
  intros. destruct (c <? 150000); Z.div_mod_to_equations; lia.
Qed.

Lemma shrunk_mono c c' : c <= c' -> shrunk c <= shrunk c'.
Proof. unfold shrunk. intros. Z.div_mod_to_equations. lia. Qed.

Lemma halved_mono c c' : c <= c' -> halved c <= halved c'.
Proof. unfold halved. intros. Z.div_mod_to_equations. lia. Qed.

Lemma grown_mono c c' :
  chunk_in_bounds c -> chunk_in_bounds c' -> c <= c' -> grown c <= grown c'.
Proof.
  unfold chunk_in_bounds, grown, MIN_CHUNK_SIZE, MAX_CHUNK_SIZE. intros.
  destruct (Z.ltb_spec c 150000); destruct (Z.ltb_spec c' 150000);
    Z.div_mod_to_equations; lia.
Qed.

Lemma adjust_dense (n : nat) (c : Z) :
  9500 <= Z.of_nat n -> adjust c (AfterLogs n) = shrunk c.
Proof.
  intros Hn. simpl. unfold resize_after_success, resize_rule_for.
  destruct (Z.geb_spec (Z.of_nat n) MAX_LOGS_PER_QUERY) as [|Hlt]; [done|].
  unfold MAX_LOGS_PER_QUERY in Hlt. lia.
Qed.

Lemma adjust_sparse (n : nat) (c : Z) :
  Z.of_nat n < 1000 -> adjust c (AfterLogs n) = grown c.
Proof.
  intros Hn. simpl. unfold resize_after_success, resize_rule_for, grown.
  destruct (Z.geb_spec (Z.of_nat n) MAX_LOGS_PER_QUERY) as [Hge|_];
    [unfold MAX_LOGS_PER_QUERY in Hge; lia|].
  destruct (Z.ltb_spec (Z.of_nat n) MIN_LOGS_TO_INCREASE_CHUNK) as [_|Hge];
    [|unfold MIN_LOGS_TO_INCREASE_CHUNK in Hge; lia].
  destruct (c <? MAX_CHUNK_SIZE); simpl; [done|]. by rewrite andb_false_r.
Qed.

Lemma adjust_overflow (message : string) (c : Z) :
  includes message "query returned more than" = true ->
  adjust c (AfterError message) = halved c.
Proof. intros Hm. simpl. unfold resize_after_error. by rewrite Hm. Qed.
End ChunkDynamics.

(** X15. A steadily dense remote source drives the chunk size to its
    floor and keeps it there: from any chunk size within bounds, after 26
    or more windows that each returned at least 9500 logs the chunk size
    is 100; so it is after 11 or more errors reporting too many results;
    any other error leaves the chunk size as it is. *)
Theorem dense_windows_shrink_chunk_to_floor (c : Z) :
  chunk_in_bounds c ->
  (forall counts : list nat,
      Forall (fun n => 9500 <= Z.of_nat n) counts -> (26 <= length counts)%nat ->
      fold_left adjust (map AfterLogs counts) c = 100) /\
  (forall messages : list string,
      Forall (fun m => includes m "query returned more than" = true) messages ->
      (11 <= length messages)%nat ->
      fold_left adjust (map AfterError messages) c = 100) /\
  (forall message,
      includes message "query returned more than" = false ->
      adjust c (AfterError message) = c).
Proof.
  intros Hc. repeat split.
  - intros counts Hall Hlen.
    rewrite (fold_adjust_iter shrunk).
    + rewrite length_map. apply (iter_down shrunk 26); try done.
      * apply shrunk_bounds.
      * intros ? ? _ _. apply shrunk_mono.
    + apply Forall_forall. intros a (n & -> & Hn)%list_elem_of_fmap.
      rewrite Forall_forall in Hall. intros c0. by apply adjust_dense, Hall.
  - intros messages Hall Hlen.
    rewrite (fold_adjust_iter halved).
    + rewrite length_map. apply (iter_down halved 11); try done.
      * apply halved_bounds.
      * intros ? ? _ _. apply halved_mono.
    + apply Forall_forall. intros a (m & -> & Hm)%list_elem_of_fmap.
      rewrite Forall_forall in Hall. intros c0. by apply adjust_overflow, Hall.
  - intros message Hm. simpl. unfold resize_after_error. by rewrite Hm.
Qed.

Lemma dense_windows_shrink_chunk_to_floor_witness :
  fold_left adjust (map AfterLogs (repeat (Z.to_nat 9500) 26)) 50000 = 100.
Proof.
  destruct (dense_windows_shrink_chunk_to_floor 50000) as [Hdense _].
  { unfold chunk_in_bounds, MIN_CHUNK_SIZE, MAX_CHUNK_SIZE. lia. }
  apply Hdense.
  - apply Forall_forall. intros n Hn%list_elem_of_In%repeat_spec. lia.
  - rewrite repeat_length. lia.
Defined.

(** X16. A steadily sparse remote source drives the chunk size to its
    ceiling and keeps it there: from any chunk size within bounds, after
    33 or more windows that each returned fewer than 1000 logs (empty
    windows included) the chunk size is 150000. *)
Theorem sparse_windows_grow_chunk_to_ceiling (c : Z) (counts : list nat) :
  chunk_in_bounds c ->
  Forall (fun n => Z.of_nat n < 1000) counts -> (33 <= length counts)%nat ->
  fold_left adjust (map AfterLogs counts) c = 150000.
Proof.
  intros Hc Hall Hlen.
  rewrite (fold_adjust_iter grown).
  - rewrite length_map. apply (iter_up grown 33); try done.
    + apply grown_bounds.
    + apply grown_mono.
  - apply Forall_forall. intros a (n & -> & Hn)%list_elem_of_fmap.
    rewrite Forall_forall in Hall. intros c0. by apply adjust_sparse, Hall.
Qed.

Lemma sparse_windows_grow_chunk_to_ceiling_witness :
  fold_left adjust (map AfterLogs (repeat 0%nat 33)) 50000 = 150000.
Proof.
  apply sparse_windows_grow_chunk_to_ceiling.
  - unfold chunk_in_bounds, MIN_CHUNK_SIZE, MAX_CHUNK_SIZE. lia.
  - apply Forall_forall. intros n Hn%list_elem_of_In%repeat_spec. lia.
  - rewrite repeat_length. lia.
Defined.

(** ** The ledger replay: owners and independence of assets *)

Section ReplayMore.

Lemma last_transfer_elem key (events : list CachedEvent) (e : CachedEvent) :
  last_transfer key events = Some e -> e ∈ events /\ asset e = key.
Proof.
  induction events as [|a events IH]; simpl; [done|].
  destruct (last_transfer key events) as [e'|].
  - intros [= ->]. destruct IH as [Hin Hk]; [done|].
    split; [by apply list_elem_of_further | done].
  - destruct (String.eqb_spec (toString (args_tokenId (args a))) key); [|done].
    intros [= ->]. split; [apply list_elem_of_here | done].
Qed.

Lemma last_transfer_filter key (events : list CachedEvent) :
  last_transfer key (filter (fun e => asset e = key) events)
  = last_transfer key events.
Proof.
  induction events as [|a events IH]; [done|].
  rewrite filter_cons. simpl. unfold asset at 1.
  destruct (decide (toString (args_tokenId (args a)) = key)) as [Ha | Ha];
    simpl; rewrite IH; [done|].
  destruct (last_transfer key events); [done|].
  by destruct (String.eqb_spec (toString (args_tokenId (args a))) key).
Qed.
End ReplayMore.

(** X17. An owner recorded by the replay is never the zero address: it is
    the recipient of an event of the sequence for that very asset. *)
Theorem replay_owner_is_a_recipient
    (events : list CachedEvent) (tokenId owner : string) :
  replay events !! tokenId = Some owner ->
  owner <> zeroAddress /\
  exists e, e ∈ events /\ asset e = tokenId /\ args_to (args e) = owner.
Proof.
  rewrite replay_reference. unfold reference_ledger.
  destruct (last_transfer tokenId events) as [e|] eqn:He; [|done].
  apply last_transfer_elem in He as [Hin Hk].
  destruct (String.eqb_spec (args_to (args e)) zeroAddress) as [|Hne]; [done|].
  intros [= <-]. split; [done|]. by exists e.
Qed.

Lemma replay_owner_is_a_recipient_witness :
  exists e,
    e ∈ [mkCachedEvent 100 0 "tx1" (mkArgs zeroAddress "0xA11ce" 1);
         mkCachedEvent 150 0 "tx2" (mkArgs "0xA11ce" "0xB0b" 1)] /\
    asset e = "1"%string /\ args_to (args e) = "0xB0b"%string.
Proof.
  destruct (replay_owner_is_a_recipient
              [mkCachedEvent 100 0 "tx1" (mkArgs zeroAddress "0xA11ce" 1);
               mkCachedEvent 150 0 "tx2" (mkArgs "0xA11ce" "0xB0b" 1)]
              "1" "0xB0b") as [_ He]; [reflexivity | exact He].
Defined.

(** X18. Assets do not interfere: the owner of an asset after a replay is
    the owner after replaying only the events of that asset, and
    replaying further events that are all about other assets leaves it
    unchanged. *)
Theorem replay_assets_are_independent
    (events : list CachedEvent) (tokenId : string) :
  replay events !! tokenId
  = replay (filter (fun e => asset e = tokenId) events) !! tokenId /\
  (forall later,
      Forall (fun e => asset e <> tokenId) later ->
      replay (events ++ later) !! tokenId = replay events !! tokenId).
Proof.
  split.
  - rewrite !replay_reference. unfold reference_ledger.
    by rewrite last_transfer_filter.
  - intros later Hother. rewrite !replay_reference. unfold reference_ledger.
    rewrite last_transfer_app. by rewrite last_transfer_other.
Qed.

(** ** The balance aggregation: totals *)

Section TotalFacts.
Variable formatEther : Z -> string.

Lemma sum_balances_settled (fetch : string -> promise Z) (owners : list string) :
  sum_balances formatEther fetch owners =
  if forallb (fun a => has_settled (fetch a)) owners
  then Fulfilled
         (formatEther (fold_left Z.add (map (fun a => counted (fetch a)) owners) 0))
  else Pending.
Proof.
  unfold sum_balances, await_balances. rewrite Promise_all_tasks.
  by destruct (forallb _ owners).
Qed.

Lemma fold_add_perm (l l' : list Z) (a : Z) :
  l ≡ₚ l' -> fold_left Z.add l a = fold_left Z.add l' a.
Proof.
  intros Hp. revert a. induction Hp as [|x l l' _ IH|x y l|l l' l'' _ IH1 _ IH2];
    intros a; simpl; [done | apply IH | f_equal; lia |].
  by rewrite IH1.
Qed.

Lemma forallb_perm {A} (f : A -> bool) (l l' : list A) :
  l ≡ₚ l' -> forallb f l = forallb f l'.
Proof.
  induction 1 as [|x l l' _ IH|x y l|l l' l'' _ IH1 _ IH2]; simpl;
    [done | by rewrite IH | by destruct (f x), (f y) | congruence].
Qed.

Lemma retry_settles (call : nat -> rpc_result) (fuel k : nat) (balance : Z) :
  first_success call k balance -> (k < fuel)%nat ->
  retry_promise (fetchBalanceWithRetry call fuel) = Fulfilled balance.
Proof.
  intros [Hok Hbefore] Hk. unfold fetchBalanceWithRetry.
  by rewrite (retry_loop_returns call k fuel 0 0 balance).
Qed.

Lemma retry_pending (call : nat -> rpc_result) (fuel : nat) :
  retry_promise (fetchBalanceWithRetry call fuel) = Pending <->
  forall j, (j < fuel)%nat -> failed call j.
Proof.
  unfold fetchBalanceWithRetry.
  pose proof (retry_loop_unbounded call fuel 0 0) as H. split.
  - destruct (retry_loop Infinity call fuel 0 0); done.
  - intros Hall. destruct (retry_loop Infinity call fuel 0 0); [|done|done].
    destruct H as (i & Hi & Hok & _). destruct (Hall i Hi) as [m Hm].
    simpl in Hok. congruence.
Qed.

Lemma retry_never_rejects (call : nat -> rpc_result) (fuel : nat) e :
  retry_promise (fetchBalanceWithRetry call fuel) <> Rejected e.
Proof. by destruct (fetchBalanceWithRetry call fuel). Qed.
End TotalFacts.

Lemma wallet_total_of_first_successes
    (formatEther : Z -> string) (getBalance : string -> Z -> nat -> rpc_result)
    (walletAddress : list string) (targetBlockNumber : Z) (fuel : nat)
    (balance : string -> Z) :
  (forall address,
      address ∈ walletAddress ->
      exists k, (k < fuel)%nat /\
                first_success (getBalance address targetBlockNumber) k (balance address)) ->
  getWalletBalance formatEther getBalance walletAddress targetBlockNumber fuel
  = Fulfilled (formatEther (fold_left Z.add (map balance walletAddress) 0)).
Proof.
  intros Hall. unfold getWalletBalance. rewrite sum_balances_settled.
  assert (Hfetch : Forall (fun a =>
            retry_promise (fetchBalanceWithRetry (getBalance a targetBlockNumber) fuel)
            = Fulfilled (balance a)) walletAddress).
  { apply Forall_forall. intros a Ha. destruct (Hall a Ha) as (k & Hk & Hfs).
    by eapply retry_settles. }
  clear Hall.
  assert (Hset : forallb (fun a => has_settled
              (retry_promise (fetchBalanceWithRetry (getBalance a targetBlockNumber) fuel)))
              walletAddress = true).
  { apply forallb_forall. intros a Ha%list_elem_of_In.
    rewrite Forall_forall in Hfetch. by rewrite (Hfetch a Ha). }
  rewrite Hset. do 3 f_equal.
  apply map_ext_Forall. eapply Forall_impl; [exact Hfetch|].
  intros a Ha. simpl. by rewrite Ha.
Qed.


(** X19. When for every owner some balance request succeeds within the
    attempts observed, [getWalletBalance] fulfils with the formatted sum
    of the balances that the first successful request of each owner
    returned; failed requests before it leave no trace in the total. *)
Theorem getWalletBalance_sums_first_successful_answers
    (formatEther : Z -> string) (getBalance : string -> Z -> nat -> rpc_result)
    (walletAddress : list string) (targetBlockNumber : Z) (fuel : nat)
    (balance : string -> Z) :
  (forall address,
      address ∈ walletAddress ->
      exists k, (k < fuel)%nat /\
                first_success (getBalance address targetBlockNumber) k (balance address)) ->
  getWalletBalance formatEther getBalance walletAddress targetBlockNumber fuel
  = Fulfilled (formatEther (fold_left Z.add (map balance walletAddress) 0)).
Proof. apply wallet_total_of_first_successes. Qed.

Lemma getWalletBalance_sums_first_successful_answers_witness :
  getWalletBalance wei_digits
    (fun address _ k =>
       if String.eqb address "0xA" then
         match k with O => RpcError "timeout" | _ => RpcOk 10 end
       else RpcOk 5)
    ["0xA"; "0xB"] 200 3
  = Fulfilled (wei_digits 15).
Proof.
  apply (getWalletBalance_sums_first_successful_answers wei_digits _
           ["0xA"; "0xB"] 200 3
           (fun address => if String.eqb address "0xA" then 10 else 5)).
  intros address Hin.
  apply elem_of_cons in Hin as [-> | Hin];
    [|apply list_elem_of_singleton in Hin; subst address].
  - exists 1%nat. split; [lia|]. split; [reflexivity|].
    intros j Hj. assert (j = 0%nat) as -> by lia. by eexists.
  - exists 0%nat. split; [lia|]. split; [reflexivity|]. intros j Hj. lia.
Defined.

(** X20. [getWalletBalance] never rejects on RPC errors; it is still
    pending exactly when some owner's requests have all failed so far;
    and its result does not depend on the order in which the owners are
    listed. *)
Theorem getWalletBalance_pending_and_order
    (formatEther : Z -> string) (getBalance : string -> Z -> nat -> rpc_result)
    (walletAddress : list string) (targetBlockNumber : Z) (fuel : nat) :
  (forall e,
      getWalletBalance formatEther getBalance walletAddress targetBlockNumber fuel
      <> Rejected e) /\
  (getWalletBalance formatEther getBalance walletAddress targetBlockNumber fuel
   = Pending <->
   exists address,
     address ∈ walletAddress /\
     forall j, (j < fuel)%nat -> failed (getBalance address targetBlockNumber) j) /\
  (forall reordered,
      walletAddress ≡ₚ reordered ->
      getWalletBalance formatEther getBalance reordered targetBlockNumber fuel
      = getWalletBalance formatEther getBalance walletAddress targetBlockNumber fuel).
Proof.
  unfold getWalletBalance. repeat split.
  - intros e. rewrite sum_balances_settled. by destruct (forallb _ _).
  - rewrite sum_balances_settled.
    destruct (forallb _ walletAddress) eqn:Hall; [done|]. intros _.
    assert (Hex : Exists (fun a => has_settled (retry_promise
                (fetchBalanceWithRetry (getBalance a targetBlockNumber) fuel)) = false)
                walletAddress).
    { clear -Hall. induction walletAddress as [|a l IH]; [done|]. simpl in Hall.
      destruct (has_settled _) eqn:Ha; [right; by apply IH | by left]. }
    apply Exists_exists in Hex as (a & Ha & Hp). exists a. split; [done|].
    apply retry_pending.
    by destruct (retry_promise (fetchBalanceWithRetry (getBalance a targetBlockNumber) fuel)).
  - intros (a & Ha & Hfail). rewrite sum_balances_settled.
    apply retry_pending in Hfail.
    assert (Hall : forallb (fun a => has_settled (retry_promise
                (fetchBalanceWithRetry (getBalance a targetBlockNumber) fuel)))
                walletAddress = false).
    { apply not_true_is_false. intros Hall. rewrite forallb_forall in Hall.
      specialize (Hall a). rewrite Hfail in Hall. simpl in Hall.
      apply list_elem_of_In in Ha. by specialize (Hall Ha). }
    by rewrite Hall.
  - intros reordered Hperm. rewrite !sum_balances_settled.
    rewrite (forallb_perm _ _ _ Hperm).
    destruct (forallb _ reordered); [|done]. do 2 f_equal.
    apply fold_add_perm. by rewrite Hperm.
Qed.

(** ** [main]: what a run asks of the remote sources *)

Section RequestFacts.
Variable call : nat -> rpc_result.

(** The requests made are the failed ones and the first that
    succeeds. *)
Lemma retry_requests_until_success (i fuel : nat) (attempts : Z) (k : nat)
    (balance : Z) :
  call (k + i)%nat = RpcOk balance ->
  (forall j, (j < i)%nat -> failed call (k + j)%nat) ->
  (i < fuel)%nat ->
  retry_requests Infinity call fuel attempts k = S i.
Proof.
  revert fuel attempts k.
  induction i as [|i IH]; intros fuel attempts k Hok Hbefore Hfuel;
    (destruct fuel as [|fuel]; [lia|]); simpl.
  - rewrite Nat.add_0_r in Hok. by rewrite Hok.
  - destruct (Hbefore 0%nat) as [message Hk]; [lia|].
    rewrite Nat.add_0_r in Hk. rewrite Hk. f_equal.
    apply IH; [by replace (S k + i)%nat with (k + S i)%nat by lia | | lia].
    intros j Hj. replace (S k + j)%nat with (k + S j)%nat by lia.
    apply Hbefore. lia.
Qed.
End RequestFacts.

Section MainFacts.




Lemma lookup_balance_requests (getBalance : string -> Z -> nat -> rpc_result)
    (uniqueHolders : gset string) (targetBlockNumber : Z) (fuel : nat)
    (address : string) (n : nat) :
  balance_requests getBalance uniqueHolders targetBlockNumber fuel !! address
  = Some n <->
  address ∈ uniqueHolders /\
  n = retry_requests Infinity (getBalance address targetBlockNumber) fuel 0 0.
Proof.
  unfold balance_requests. rewrite lookup_set_to_map.
  - split.
    + intros (y & Hy & Heq). injection Heq as -> <-. done.
    + intros [Hin ->]. by exists address.
  - intros y y' _ _ Heq. exact Heq.
Qed.


End MainFacts.


(** ** The rate limiter: throughput, wake-ups, task life cycle *)

Section LimiterMore.

Lemma spaced_far (d : Z) (l : list (nat * Z)) :
  spaced d l ->
  forall k i a ta b tb,
    l !! i = Some (a, ta) -> l !! (i + k)%nat = Some (b, tb) ->
    tb - ta >= d * Z.of_nat k.
Proof.
  intros Hs. induction k as [|k IH]; intros i a ta b tb Hi Hik.
  - rewrite Nat.add_0_r in Hik. rewrite Hi in Hik. injection Hik as _ <-. lia.
  - replace (i + S k)%nat with (S (i + k)) in Hik by lia.
    destruct (l !! (i + k)%nat) as [[c tc]|] eqn:Hc.
    + pose proof (IH i a ta c tc Hi Hc).
      pose proof (spaced_consecutive d l Hs (i + k)%nat c tc b tb Hc Hik). lia.
    + apply lookup_ge_None in Hc. apply lookup_lt_Some in Hik. lia.
Qed.

Lemma dispatch_starts (now : Z) (s : State) :
  starts (dispatch now s) = starts s \/
  exists task rest,
    queue s = task :: rest /\ queue (dispatch now s) = rest /\
    starts (dispatch now s) = starts s ++ [(task, now)].
Proof.
  destruct (dispatch_cases now s)
    as [[_ ->] | [(task & rest & _ & Hq & _ & ->)
                 | (task & rest & _ & _ & _ & ->)]];
    [by left | right | by left].
  exists task, rest. done.
Qed.
End LimiterMore.

(** X22. Throughput ceiling of the limiter built with 25 requests per
    second: in every reachable state a task start and the [k]-th start
    after it are at least 40 * k milliseconds apart. *)
Theorem rate_limiter_throughput_ceiling (es : list event) (s : State) :
  run es (constructor 25) = Some s ->
  forall k i a ta b tb,
    starts s !! i = Some (a, ta) -> starts s !! (i + k)%nat = Some (b, tb) ->
    tb - ta >= 40 * Z.of_nat k.
Proof.
  intros Hrun.
  pose proof (run_inv es _ s (constructor_inv 25) Hrun) as [Hpre _].
  pose proof (run_interval es _ s Hrun) as Hd. change (interval s = 40) in Hd.
  pose proof (pre_spaced s Hpre) as Hs. rewrite Hd in Hs.
  by apply spaced_far.
Qed.

Lemma rate_limiter_throughput_ceiling_witness :
  1080 - 1000 >= 40 * Z.of_nat 2.
Proof.
  destruct (run [Add 1000; Add 1000; Add 1000; Settle 0 1005; Fire 0 1039;
                 Fire 1 1040; Fire 2 1040; Settle 1 1041; Fire 3 1080]
              (constructor 25))
    as [s|] eqn:Hrun; [|vm_compute in Hrun; discriminate].
  apply (rate_limiter_throughput_ceiling _ s Hrun 2 0 0%nat 1000 2%nat 1080);
    vm_compute in Hrun; injection Hrun as <-; reflexivity.
Defined.

(** X23. No wake-up is lost: in every reachable state of the limiter a
    recorded [timeoutId] names a timer that is still armed, armed timers
    have distinct ids, none is due later than one interval after the last
    dispatch, and a waiting entry always has an armed timer or a running
    task whose completion will call [dispatch]. *)
Theorem rate_limiter_loses_no_wake_up (es : list event) (s : State) :
  run es (constructor 25) = Some s ->
  (forall k, timeoutId s = Some k -> exists due, (k, due) ∈ timers s) /\
  NoDup (map fst (timers s)) /\
  Forall (fun p => snd p <= lastDispatchTime s + 40) (timers s) /\
  (queue s <> [] -> timers s <> [] \/ running s <> []).
Proof.
  intros Hrun.
  pose proof (run_inv es _ s (constructor_inv 25) Hrun) as [Hpre Hprog].
  pose proof (run_interval es _ s Hrun) as Hd. change (interval s = 40) in Hd.
  assert (Harmed : forall k, timeoutId s = Some k -> exists due, (k, due) ∈ timers s).
  { intros k Hk. apply (pre_timeout s Hpre) in Hk.
    apply list_elem_of_fmap in Hk as ([k' due] & -> & Hin). by exists due. }
  split; [done|]. split; [apply (pre_timer_ids s Hpre)|]. split.
  - eapply Forall_impl; [apply (pre_timers s Hpre)|]. intros p [_ Hp]. lia.
  - intros Hq. destruct (Hprog Hq) as [Ht | Hr]; [|by right]. left.
    destruct (timeoutId s) as [k|]; [|done].
    destruct (Harmed k eq_refl) as [due Hin]. intros Hnil.
    rewrite Hnil in Hin. by apply elem_of_nil in Hin.
Qed.

Lemma rate_limiter_loses_no_wake_up_witness :
  exists s,
    run [Add 1000; Add 1000; Add 1000; Settle 0 1005; Fire 1 1020]
      (constructor 25) = Some s /\
    Forall (fun p => snd p <= lastDispatchTime s + 40) (timers s).
Proof.
  destruct (run [Add 1000; Add 1000; Add 1000; Settle 0 1005; Fire 1 1020]
              (constructor 25))
    as [s|] eqn:Hrun; [|vm_compute in Hrun; discriminate].
  exists s. split; [reflexivity|].
  by destruct (rate_limiter_loses_no_wake_up _ s Hrun) as (_ & _ & H & _).
Defined.



(** X25. One event starts at most one task, however long the limiter has
    been idle and however many entries wait: [dispatch] does not loop, and
    the task it starts is the oldest entry of the queue, stamped with the
    time of the event. *)
Theorem rate_limiter_starts_one_task_per_event (e : event) (s s' : State) :
  step e s = Some s' ->
  starts s' = starts s \/
  exists task,
    starts s' = starts s ++ [(task, event_time e)] /\
    head (queue s ++ [submitted s]) = Some task.
Proof.
  unfold step. destruct (clock s <=? event_time e); [|done].
  destruct e as [now | task now | timer now].
  - intros [= <-]. unfold add.
    match goal with |- context [dispatch now ?s1] =>
      destruct (dispatch_starts now s1) as [Heq | (t1 & rest & Hq & _ & Heq)]
    end; [by left | right]. exists t1. split; [done|].
    simpl in Hq. by rewrite Hq.
  - case_bool_decide; [|done]. intros [= <-]. unfold on_settled.
    match goal with |- context [dispatch now ?s1] =>
      destruct (dispatch_starts now s1) as [Heq | (t1 & rest & Hq & _ & Heq)]
    end; [by left | right]. exists t1. split; [done|].
    simpl in Hq. by rewrite Hq.
  - destruct (timer_due _ _); [|done].
    intros [= <-]. unfold on_timeout.
    match goal with |- context [dispatch now ?s1] =>
      destruct (dispatch_starts now s1) as [Heq | (t1 & rest & Hq & _ & Heq)]
    end; [by left | right]. exists t1. split; [done|].
    simpl in Hq. by rewrite Hq.
Qed.

Lemma rate_limiter_starts_one_task_per_event_witness :
  exists s s',
    run [Add 1000; Add 1000; Add 1000; Add 1000; Settle 0 1005] (constructor 25)
    = Some s /\
    step (Fire 0 9000) s = Some s' /\
    length (starts s') = 2%nat /\ length (queue s') = 2%nat.
Proof.
  destruct (run [Add 1000; Add 1000; Add 1000; Add 1000; Settle 0 1005]
              (constructor 25))
    as [s|] eqn:Hrun; [|vm_compute in Hrun; discriminate].
  destruct (step (Fire 0 9000) s) as [s'|] eqn:Hstep;
    [|vm_compute in Hrun; injection Hrun as <-; vm_compute in Hstep; discriminate].
  exists s, s'. split; [reflexivity|]. split; [exact Hstep|].
  pose proof (rate_limiter_starts_one_task_per_event _ s s' Hstep) as Hone.
  vm_compute in Hrun. injection Hrun as <-.
  vm_compute in Hstep. injection Hstep as <-. split; reflexivity.
Defined.

(** ** [main]: the phases in sequence *)

(** X26. The phases of [main] run strictly one after the other. While the
    sweep has not finished, the run is pending and has built no holder
    map, requested no balance and logged no total. When the search found
    a block, the sweep finished, the holder map was built and for every
    owner some balance request succeeded within the attempts observed,
    the run fulfils and its trace is: the found block, the windows of the
    sweep, the holder map replayed from the deployment block to the found
    block over the cache the sweep left, the balance requests, made for
    the owners of that map and for each of them as many as it took to get
    the first answer, and the formatted sum of the owners' balances (a
    sum, so the order in which the owners are listed does not matter). *)
Theorem main_runs_phases_in_sequence
    (formatEther : Z -> string) (w : World) (fuel : nat)
    (targetUnixTimestamp : Z) (b : Block) (s : Sweep) :
  findBlockByTimestamp (getBlockNumber w) (getBlock w) targetUnixTimestamp = Some b ->
  (getTransactionThroughBlock (queryFilter w) (number b) (db w) fuel = Running s ->
   main formatEther w fuel targetUnixTimestamp
   = (LogFoundBlock (number b) (timestamp b)
        :: map (fun win => QueriedWindow (fst win) (snd win)) (windows s),
      Pending)) /\
  (getTransactionThroughBlock (queryFilter w) (number b) (db w) fuel = Finished s ->
   forall holderMap index balance,
     getHolderMapByBlock startBlock (number b) (cache s) = Some holderMap ->
     (forall tokenId address,
         holderMap !! tokenId = Some address ->
         (index address < fuel)%nat /\
         first_success (getBalance w address (number b)) (index address)
           (balance address)) ->
     exists requests,
       main formatEther w fuel targetUnixTimestamp
       = (LogFoundBlock (number b) (timestamp b)
            :: map (fun win => QueriedWindow (fst win) (snd win)) (windows s)
            ++ [BuiltHolderMap holderMap;
                RequestedBalances requests;
                LogTotalSum
                  (formatEther
                     (fold_left Z.add
                        (map balance (elements (map_img holderMap : gset string)))
                        0))],
          Fulfilled tt) /\
       forall address n,
         requests !! address = Some n <->
         (exists tokenId, holderMap !! tokenId = Some address) /\
         n = S (index address)).
Proof.
  intros Hfind. split.
  - intros Hsweep. unfold main. rewrite Hfind, Hsweep. reflexivity.
  - intros Hsweep holderMap index balance Hmap Hbal.
    exists (balance_requests (getBalance w) (map_img holderMap) (number b) fuel).
    split.
    + unfold main. rewrite Hfind, Hsweep.
      unfold run_bind, emit, run_sweep, block_number, run_ret, run_holder_map.
      simpl. rewrite Hmap.
      rewrite (wallet_total_of_first_successes formatEther (getBalance w) _ _ _
                 balance).
      * simpl. rewrite ?app_nil_r. reflexivity.
      * intros address [tokenId Hkv]%elem_of_elements%elem_of_map_img.
        destruct (Hbal tokenId address Hkv) as [Hk Hfs]. by exists (index address).
    + intros address n. rewrite lookup_balance_requests, elem_of_map_img.
      split.
      * intros [[tokenId Hkv] ->]. split; [by exists tokenId|].
        destruct (Hbal tokenId address Hkv) as [Hk [Hok Hbefore]].
        by apply (retry_requests_until_success _ (index address) fuel 0 0%nat
                    (balance address)).
      * intros [[tokenId Hkv] ->]. split; [by exists tokenId|].
        destruct (Hbal tokenId address Hkv) as [Hk [Hok Hbefore]].
        symmetry.
        by apply (retry_requests_until_success _ (index address) fuel 0 0%nat
                    (balance address)).
Qed.

(** A chain of 12300001 blocks, 12 seconds apart. The search for the time
    of block 12290000 ends at block 12290006; the one window of the sweep
    returns three mints, of the tokens 1 and 10 to one address and of the
    token 2 to another; the first balance request for the first address
    fails. *)
Lemma main_runs_phases_in_sequence_witness :
  exists requests,
    main wei_digits
      (mkWorld 12300000 (fun n => Some (mkBlock n (n * 12)))
         (fun _ _ _ =>
            QueryOk [mkEventLog 12286700 0 "0xt1" zeroAddress "0xA" 1;
                     mkEventLog 12286800 3 "0xt2" zeroAddress "0xB" 2;
                     mkEventLog 12287000 1 "0xt3" zeroAddress "0xA" 10])
         (fun address _ k =>
            if String.eqb address "0xA" then
              match k with O => RpcError "timeout" | _ => RpcOk 10 end
            else RpcOk 5)
         [])
      3 147480000
    = ([LogFoundBlock 12290006 147480072;
        QueriedWindow 12286690 12290006;
        BuiltHolderMap {[ "1" := "0xA"; "2" := "0xB"; "10" := "0xA" ]};
        RequestedBalances requests;
        LogTotalSum "15"],
       Fulfilled tt) /\
    requests !! "0xA" = Some 2%nat /\ requests !! "0xB" = Some 1%nat.
Proof.
  set (w := mkWorld 12300000 (fun n => Some (mkBlock n (n * 12)))
         (fun _ _ _ =>
            QueryOk [mkEventLog 12286700 0 "0xt1" zeroAddress "0xA" 1;
                     mkEventLog 12286800 3 "0xt2" zeroAddress "0xB" 2;
                     mkEventLog 12287000 1 "0xt3" zeroAddress "0xA" 10])
         (fun address _ k =>
            if String.eqb address "0xA" then
              match k with O => RpcError "timeout" | _ => RpcOk 10 end
            else RpcOk 5)
         []).
  destruct (main_runs_phases_in_sequence wei_digits w 3 147480000
              (mkBlock 12290006 147480072)
              (loop_state
                 (getTransactionThroughBlock (queryFilter w) 12290006 (db w) 3)))
    as [_ Hdone].
  { unfold findBlockByTimestamp.
    rewrite (search_loop_more_fuel (getBlock w) 147480000 30
               (Z.to_nat (getBlockNumber w + 1)) 0 (getBlockNumber w)
               (Some (mkBlock 12290006 147480072)));
      [reflexivity | vm_compute; reflexivity | simpl; lia]. }
  destruct (Hdone ltac:(vm_compute; reflexivity)
              {[ "1" := "0xA"; "2" := "0xB"; "10" := "0xA" ]}
              (fun address => if String.eqb address "0xA" then 1%nat else 0%nat)
              (fun address => if String.eqb address "0xA" then 10 else 5))
    as (requests & Hmain & Hrequests).
  - vm_compute. reflexivity.
  - intros tokenId address Hkv. apply elem_of_map_to_list in Hkv.
    vm_compute in Hkv.
    repeat (apply elem_of_cons in Hkv as [Hkv | Hkv];
            [injection Hkv as -> ->|]);
      [| | | by apply elem_of_nil in Hkv].
    all: split; [simpl; lia|]; split; [reflexivity|]; intros j Hj; simpl in Hj.
    all: try lia.
    all: assert (j = 0%nat) as -> by lia; by eexists.
  - exists requests. split; [|split; apply Hrequests].
    + rewrite Hmain. vm_compute. reflexivity.
    + split; [by exists "1"%string | reflexivity].
    + split; [by exists "2"%string | reflexivity].
Defined.

(** ** The ingestion sweep: running it again *)

Section SweepAgain.
Variable chain : list EventLog.
Hypothesis chain_heights : Forall (fun e => 0 <= ev_blockNumber e) chain.

Lemma GetHighestCachedBlock_app (t added : Table) :
  Forall (fun r => 0 <= blockNumber r) (t ++ added) ->
  GetHighestCachedBlock t <= GetHighestCachedBlock (t ++ added).
Proof.
  intros Hnonneg.
  destruct (GetHighestCachedBlock_cases t) as [-> | (r & Hr & Hbn & Hne)].
  - destruct (GetHighestCachedBlock_cases (t ++ added))
      as [-> | (r & Hr & <- & _)]; [done|].
    rewrite Forall_forall in Hnonneg. specialize (Hnonneg r Hr). lia.
  - rewrite <- Hbn. apply GetHighestCachedBlock_ge.
    + apply elem_of_app. by left.
    + rewrite Forall_forall in Hnonneg.
      assert (Hin : r ∈ t ++ added) by (apply elem_of_app; by left).
      specialize (Hnonneg r Hin). lia.
Qed.

Lemma chain_sweep_heights highest maxBlock (fuel : nat) (s : Sweep) :
  Forall (fun r => 0 <= blockNumber r) (cache s) ->
  Forall (fun r => 0 <= blockNumber r)
    (cache (loop_state (sweep_loop (chain_source chain) highest maxBlock fuel s))).
Proof.
  revert s. induction fuel as [|fuel IH]; intros s Hs; simpl;
    destruct (currentBlock s <=? maxBlock); simpl; try done.
  apply IH. unfold sweep_body. destruct (highest >? currentBlock s); [done|].
  unfold chain_source at 1. simpl.
  destruct (bulkInsertEvents_extends
              (filter (fun e => currentBlock s <= ev_blockNumber e <=
                         Z.min (currentBlock s + currentChunkSize s - 1) maxBlock)
                 chain) (cache s)) as (added & -> & Hadded).
  apply Forall_app. split; [done|].
  eapply Forall_impl; [exact Hadded|]. intros r (e & [_ He]%list_elem_of_filter & ->).
  simpl. rewrite Forall_forall in chain_heights. by apply chain_heights.
Qed.

(** A sweep over a cache that already holds the chain between [low] and
    [maxBlock] writes nothing. *)
Lemma chain_body_no_write highest maxBlock low (s : Sweep) :
  (forall e, e ∈ chain -> low <= ev_blockNumber e <= maxBlock ->
             key (row_of_event e) ∈ map key (cache s)) ->
  chunk_in_bounds (currentChunkSize s) ->
  currentBlock s <= maxBlock ->
  low <= highest \/ low <= currentBlock s ->
  cache (sweep_body (chain_source chain) highest maxBlock s) = cache s /\
  (low <= highest \/
   low <= currentBlock (sweep_body (chain_source chain) highest maxBlock s)).
Proof.
  intros Hheld Hc Hle Hlow. unfold sweep_body.
  destruct (Z.gtb_spec highest (currentBlock s)) as [Hskip | Hno]; simpl.
  - split; [done | right; lia].
  - unfold chain_source. simpl. split.
    + apply bulkInsertEvents_present, Forall_forall.
      intros e [Hrange He]%list_elem_of_filter. apply Hheld; [done | lia].
    + unfold chunk_in_bounds, MIN_CHUNK_SIZE in Hc. right. lia.
Qed.

(** A sweep over a cache that already holds the chain between [low] and
    [maxBlock] writes nothing. *)
Lemma chain_sweep_no_write highest maxBlock low (fuel : nat) (s : Sweep) :
  (forall e, e ∈ chain -> low <= ev_blockNumber e <= maxBlock ->
             key (row_of_event e) ∈ map key (cache s)) ->
  chunk_in_bounds (currentChunkSize s) ->
  low <= highest \/ low <= currentBlock s ->
  cache (loop_state (sweep_loop (chain_source chain) highest maxBlock fuel s))
  = cache s.
Proof.
  revert s. induction fuel as [|fuel IH]; intros s Hheld Hc Hlow; simpl;
    destruct (Z.leb_spec (currentBlock s) maxBlock) as [Hle | Hgt]; simpl;
    try done.
  destruct (chain_body_no_write highest maxBlock low s Hheld Hc Hle Hlow)
    as [Hsame Hl].
  rewrite IH; [done | by rewrite Hsame | by apply sweep_body_bounds | done].
Qed.
End SweepAgain.

(** X27. Running the sweep again is idempotent: against a remote source
    that serves a fixed chain of events (block numbers not negative),
    once a sweep to a target has finished, a second sweep to the same
    target over the cache it left, with any initial chunk size within
    bounds and for any number of iterations, leaves the cache exactly as
    it is. *)
Theorem second_sweep_writes_nothing
    (chain : list EventLog) (genesis chunk target : Z) (db : Table)
    (fuel : nat) (s : Sweep) :
  Forall (fun e => 0 <= ev_blockNumber e) chain ->
  Forall (fun r => 0 <= blockNumber r) db ->
  genesis <= target ->
  sweep_from genesis chunk (chain_source chain) target db fuel = Finished s ->
  forall chunk' fuel',
    chunk_in_bounds chunk' ->
    cache (loop_state
             (sweep_from genesis chunk' (chain_source chain) target (cache s) fuel'))
    = cache s.
Proof.
  intros Hchain Hdb Hg Hrun chunk' fuel' Hc'.
  destruct (Z.le_gt_cases target (GetHighestCachedBlock db)) as [Hdone | Hless].
  - (* the first sweep returned at once *)
    unfold sweep_from in Hrun.
    destruct (Z.geb_spec (GetHighestCachedBlock db) target); [|lia].
    injection Hrun as <-. simpl. unfold sweep_from.
    destruct (Z.geb_spec (GetHighestCachedBlock db) target); [done | lia].
  - assert (Hheld : forall e, e ∈ chain ->
              Z.max genesis (GetHighestCachedBlock db) <= ev_blockNumber e <= target ->
              key (row_of_event e) ∈ map key (cache s)).
    { unfold sweep_from in Hrun.
      destruct (Z.geb_spec (GetHighestCachedBlock db) target); [lia|].
      assert (H0 : covering (chain_source chain) target
                     (Z.max genesis (GetHighestCachedBlock db))
                     {| currentBlock := genesis; currentChunkSize := chunk;
                        cache := db; windows := [] |}).
      { split; [simpl; lia|]. split.
        - intros h Hrange. simpl in Hrange. lia.
        - intros i f t evs e Hi. simpl in Hi. by rewrite lookup_nil in Hi. }
      destruct (covering_loop (chain_source chain) (GetHighestCachedBlock db) target
                  (Z.max genesis (GetHighestCachedBlock db))
                  ltac:(lia) ltac:(lia) fuel _ s H0 Hrun)
        as [(_ & Hcov & Hst) Hcur].
      intros e He Hrange.
      destruct (Hcov (ev_blockNumber e)) as (i & f & t & evs & Hi & Hft & Hok); [lia|].
      apply (Hst i f t evs e Hi Hok).
      unfold chain_source in Hok. injection Hok as <-.
      apply list_elem_of_filter. done. }
    assert (Hmono : GetHighestCachedBlock db <= GetHighestCachedBlock (cache s)).
    { unfold sweep_from in Hrun.
      destruct (Z.geb_spec (GetHighestCachedBlock db) target); [lia|].
      pose proof (chain_sweep_heights chain Hchain (GetHighestCachedBlock db) target
                    fuel {| currentBlock := genesis; currentChunkSize := chunk;
                            cache := db; windows := [] |} Hdb) as Hnonneg.
      destruct (sweep_loop_extends (chain_source chain) (GetHighestCachedBlock db)
                  target fuel {| currentBlock := genesis; currentChunkSize := chunk;
                                 cache := db; windows := [] |}) as [[added Hadd] _].
      rewrite Hrun in Hnonneg, Hadd. simpl in Hnonneg, Hadd.
      rewrite Hadd in Hnonneg |- *. by apply GetHighestCachedBlock_app. }
    unfold sweep_from.
    destruct (GetHighestCachedBlock (cache s) >=? target); [done|].
    rewrite (chain_sweep_no_write chain (GetHighestCachedBlock (cache s)) target
               (Z.max genesis (GetHighestCachedBlock db))); simpl; [done | | done | lia].
    intros e He Hrange. by apply Hheld.
Qed.

Lemma second_sweep_writes_nothing_witness :
  cache (loop_state
    (sweep_from 1000 150
       (chain_source [mkEventLog 1100 0 "0xa" "0x0" "0x1" 7;
                      mkEventLog 1450 2 "0xb" "0x1" "0x2" 7])
       1500
       (cache (loop_state
          (sweep_from 1000 200
             (chain_source [mkEventLog 1100 0 "0xa" "0x0" "0x1" 7;
                            mkEventLog 1450 2 "0xb" "0x1" "0x2" 7])
             1500 [] 5)))
       4))
  = [mkRow 1100 0 "0xa" "0x0" "0x1" "7"; mkRow 1450 2 "0xb" "0x1" "0x2" "7"].
Proof.
  destruct (sweep_from 1000 200
              (chain_source [mkEventLog 1100 0 "0xa" "0x0" "0x1" 7;
                             mkEventLog 1450 2 "0xb" "0x1" "0x2" 7])
              1500 [] 5) as [s|s] eqn:Hrun; [|vm_compute in Hrun; discriminate].
  simpl loop_state at 2.
  rewrite (second_sweep_writes_nothing _ 1000 200 1500 [] 5 s);
    [| | |lia|exact Hrun|].
  - vm_compute in Hrun. injection Hrun as <-. reflexivity.
  - repeat (constructor; [simpl; lia|]). constructor.
  - constructor.
  - unfold chunk_in_bounds, MIN_CHUNK_SIZE, MAX_CHUNK_SIZE. lia.
Defined.
